(** * Thanaweya-Amma RAG: cleaning, chunking and hybrid retrieval

    A shallow embedding of [src/data_processing.py] (cleaning strategies,
    paragraph reconstruction, chunk records) and [src/hybrid_retriever.py]
    (per-subject BM25 search, reciprocal rank fusion, hybrid search),
    followed by the properties the specification states about them.

    Conventions of the embedding:
    - a Python [str] is a list of Unicode code points ([str := list N]), so
      that [len], [strip] and the regular expressions see Arabic text the
      way Python does; literals are written as in the source and decoded
      from UTF-8 by [u];
    - a Python [float] score is an exact rational ([Q]); equality of scores
      is [Qeq];
    - a Python [int] is a [Z]; an index produced by [numpy.argsort] is a
      [nat];
    - a raised exception is the [Raise] outcome of the [Py] type; what
      [print] writes is returned as a list of lines;
    - the libraries the code calls but does not contain (rank_bm25, numpy,
      langchain's splitter, the vector store behind ChromaDB) are the
      fields of the class [External]. *)

From Stdlib Require Import List ZArith QArith Lia Lqa Bool Permutation Sorted.
From Stdlib Require Import Strings.String Strings.Ascii DecimalString.
From stdpp Require Import gmap list sorting.
Import ListNotations.

#[local] Set Warnings "-clear-no-such-hyp".
Local Open Scope list_scope.

(** * Part I: the program *)

(** ** Python strings *)

Definition codepoint : Type := N.
Definition str : Type := list codepoint.

(** The code points of a UTF-8 encoded literal. *)
Fixpoint utf8_decode (bytes : list N) : str :=
  match bytes with
  | [] => []
  | b0 :: rest =>
      if (b0 <? 128)%N then b0 :: utf8_decode rest
      else if (b0 <? 224)%N then
        match rest with
        | b1 :: rest1 => ((b0 - 192) * 64 + (b1 - 128))%N :: utf8_decode rest1
        | _ => [b0]
        end
      else if (b0 <? 240)%N then
        match rest with
        | b1 :: b2 :: rest2 =>
            ((b0 - 224) * 4096 + (b1 - 128) * 64 + (b2 - 128))%N
              :: utf8_decode rest2
        | _ => [b0]
        end
      else
        match rest with
        | b1 :: b2 :: b3 :: rest3 =>
            ((b0 - 240) * 262144 + (b1 - 128) * 4096 + (b2 - 128) * 64
             + (b3 - 128))%N :: utf8_decode rest3
        | _ => [b0]
        end
  end.

Definition u (s : string) : str :=
  utf8_decode (map N_of_ascii (list_ascii_of_string s)).

(** A one-character literal. *)
Definition ch (s : string) : codepoint :=
  match u s with
  | c :: _ => c
  | [] => 0%N
  end.

Definition NL : codepoint := 10%N.

Definition in_ranges (table : list (N * N)) (c : codepoint) : bool :=
  existsb (fun r => (fst r <=? c)%N && (c <=? snd r)%N) table.

(** Tables of the Unicode character database (version 14.0, the one of
    CPython 3.11): [str.isspace] and the class [\s]; [str.isdecimal] and
    the class [\d]; [str.isdigit]. *)
Definition isspace_table : list (N * N) :=
  [(9, 13); (28, 32); (133, 133); (160, 160); (5760, 5760); (8192, 8202);
   (8232, 8233); (8239, 8239); (8287, 8287); (12288, 12288)]%N.

Definition decimal_table : list (N * N) :=
  [(48, 57); (1632, 1641); (1776, 1785); (1984, 1993); (2406, 2415);
   (2534, 2543); (2662, 2671); (2790, 2799); (2918, 2927); (3046, 3055);
   (3174, 3183); (3302, 3311); (3430, 3439); (3558, 3567); (3664, 3673);
   (3792, 3801); (3872, 3881); (4160, 4169); (4240, 4249); (6112, 6121);
   (6160, 6169); (6470, 6479); (6608, 6617); (6784, 6793); (6800, 6809);
   (6992, 7001); (7088, 7097); (7232, 7241); (7248, 7257); (42528, 42537);
   (43216, 43225); (43264, 43273); (43472, 43481); (43504, 43513);
   (43600, 43609); (44016, 44025); (65296, 65305); (66720, 66729);
   (68912, 68921); (69734, 69743); (69872, 69881); (69942, 69951);
   (70096, 70105); (70384, 70393); (70736, 70745); (70864, 70873);
   (71248, 71257); (71360, 71369); (71472, 71481); (71904, 71913);
   (72016, 72025); (72784, 72793); (73040, 73049); (73120, 73129);
   (92768, 92777); (92864, 92873); (93008, 93017); (120782, 120831);
   (123200, 123209); (123632, 123641); (125264, 125273); (130032, 130041)]%N.

Definition digit_table : list (N * N) :=
  [(48, 57); (178, 179); (185, 185); (1632, 1641); (1776, 1785);
   (1984, 1993); (2406, 2415); (2534, 2543); (2662, 2671); (2790, 2799);
   (2918, 2927); (3046, 3055); (3174, 3183); (3302, 3311); (3430, 3439);
   (3558, 3567); (3664, 3673); (3792, 3801); (3872, 3881); (4160, 4169);
   (4240, 4249); (4969, 4977); (6112, 6121); (6160, 6169); (6470, 6479);
   (6608, 6618); (6784, 6793); (6800, 6809); (6992, 7001); (7088, 7097);
   (7232, 7241); (7248, 7257); (8304, 8304); (8308, 8313); (8320, 8329);
   (9312, 9320); (9332, 9340); (9352, 9360); (9450, 9450); (9461, 9469);
   (9471, 9471); (10102, 10110); (10112, 10120); (10122, 10130);
   (42528, 42537); (43216, 43225); (43264, 43273); (43472, 43481);
   (43504, 43513); (43600, 43609); (44016, 44025); (65296, 65305);
   (66720, 66729); (68160, 68163); (68912, 68921); (69216, 69224);
   (69714, 69722); (69734, 69743); (69872, 69881); (69942, 69951);
   (70096, 70105); (70384, 70393); (70736, 70745); (70864, 70873);
   (71248, 71257); (71360, 71369); (71472, 71481); (71904, 71913);
   (72016, 72025); (72784, 72793); (73040, 73049); (73120, 73129);
   (92768, 92777); (92864, 92873); (93008, 93017); (120782, 120831);
   (123200, 123209); (123632, 123641); (125264, 125273); (127232, 127242);
   (130032, 130041)]%N.

Definition is_space (c : codepoint) : bool := in_ranges isspace_table c.
Definition is_decimal (c : codepoint) : bool := in_ranges decimal_table c.
Definition is_digit (c : codepoint) : bool := in_ranges digit_table c.

(** [s.strip()] *)
Fixpoint lstrip (s : str) : str :=
  match s with
  | [] => []
  | c :: s' => if is_space c then lstrip s' else s
  end.

Definition rstrip (s : str) : str := rev (lstrip (rev s)).

Definition strip (s : str) : str := rstrip (lstrip s).

(** [s.split(sep)] for a one-character separator: never an empty list. *)
Fixpoint split_on (sep : codepoint) (s : str) : list str :=
  match s with
  | [] => [[]]
  | c :: s' =>
      if (c =? sep)%N then [] :: split_on sep s'
      else match split_on sep s' with
           | [] => [[c]]
           | w :: ws => (c :: w) :: ws
           end
  end.

(** [sep.join(parts)] *)
Fixpoint join (sep : str) (parts : list str) : str :=
  match parts with
  | [] => []
  | [p] => p
  | p :: rest => p ++ sep ++ join sep rest
  end.

(** [s.isdigit()]: at least one character, all of them digits. *)
Definition isdigit (s : str) : bool :=
  match s with
  | [] => false
  | _ => forallb is_digit s
  end.

(** [s.count(c)] for a one-character [c]. *)
Definition count_char (c : codepoint) (s : str) : nat :=
  length (List.filter (N.eqb c) s).

(** [s.replace(c, new)] for a one-character [c]. *)
Definition replace_char (c : codepoint) (new : str) (s : str) : str :=
  flat_map (fun x => if (x =? c)%N then new else [x]) s.

(** [s.endswith(tuple of one-character strings)] *)
Definition endswith_any (cs : list codepoint) (s : str) : bool :=
  match last s with
  | Some c => existsb (N.eqb c) cs
  | None => false
  end.

(** [s in [...]] *)
Definition str_in (s : str) (l : list str) : bool :=
  bool_decide (s ∈ l).

(** [str(n)] for a length. *)
Definition str_of_nat (n : nat) : str :=
  map N_of_ascii (list_ascii_of_string (NilZero.string_of_uint (Nat.to_uint n))).

(** ** Regular expressions ([re])

    A backtracking matcher with the priorities of [re]: alternatives are
    tried left to right, [*], [+] and [?] are greedy. [IGNORECASE] is
    applied where a pattern is written, through [ilit] and [istr];
    [MULTILINE] is an argument of the matcher. *)

Inductive regex : Type :=
| Empty
| Chr (p : codepoint -> bool)
| Cat (r1 r2 : regex)
| Alt (r1 r2 : regex)
| Star (r : regex)
| Opt (r : regex)
| Group (n : nat) (r : regex)
| Bol
| Eol.

(** [^]: at the start of the string, and with [MULTILINE] after a newline. *)
Definition at_bol (multiline : bool) (prev : option codepoint) : bool :=
  match prev with
  | None => true
  | Some c => multiline && (c =? NL)%N
  end.

(** [$]: at the end of the string and before its last newline, and with
    [MULTILINE] before any newline. *)
Definition at_eol (multiline : bool) (s : str) : bool :=
  match s with
  | [] => true
  | c :: s' => (c =? NL)%N && (multiline || match s' with [] => true | _ => false end)
  end.

(** The iteration of a greedy star: [step] matches the body once, and
    an iteration that consumes nothing is not repeated, so [length s]
    rounds of [fuel] are all a string [s] can take. *)
Definition star_iter {R : Type}
    (step : option codepoint -> str -> gmap nat str ->
            (option codepoint -> str -> gmap nat str -> option R) -> option R)
    (k : option codepoint -> str -> gmap nat str -> option R)
  : nat -> option codepoint -> str -> gmap nat str -> option R :=
  fix loop (fuel : nat) (prev : option codepoint) (s : str)
      (caps : gmap nat str) {struct fuel} : option R :=
    match fuel with
    | O => k prev s caps
    | S fuel' =>
        match step prev s caps
                (fun prev' s' caps' =>
                   if (length s' <? length s)%nat
                   then loop fuel' prev' s' caps'
                   else None) with
        | Some x => Some x
        | None => k prev s caps
        end
    end.

(** [rmatch ml r prev s caps k]: match [r] at the head of [s], [prev]
    being the character before it, then continue with [k] on what is left;
    [caps] holds the groups captured so far. *)
Fixpoint rmatch {R : Type} (ml : bool) (r : regex)
    (prev : option codepoint) (s : str) (caps : gmap nat str)
    (k : option codepoint -> str -> gmap nat str -> option R) {struct r}
  : option R :=
  match r with
  | Empty => k prev s caps
  | Chr p =>
      match s with
      | c :: s' => if p c then k (Some c) s' caps else None
      | [] => None
      end
  | Cat r1 r2 =>
      rmatch ml r1 prev s caps
        (fun prev' s' caps' => rmatch ml r2 prev' s' caps' k)
  | Alt r1 r2 =>
      match rmatch ml r1 prev s caps k with
      | Some x => Some x
      | None => rmatch ml r2 prev s caps k
      end
  | Opt r1 =>
      match rmatch ml r1 prev s caps k with
      | Some x => Some x
      | None => k prev s caps
      end
  | Star r1 => star_iter (rmatch ml r1) k (length s) prev s caps
  | Group n r1 =>
      rmatch ml r1 prev s caps
        (fun prev' s' caps' =>
           k prev' s' (<[n := take (length s - length s') s]> caps'))
  | Bol => if at_bol ml prev then k prev s caps else None
  | Eol => if at_eol ml s then k prev s caps else None
  end.

(** The match of [r] at the head of [s], if any: what follows the match
    and the captured groups. *)
Definition match_here (ml : bool) (r : regex) (prev : option codepoint)
    (s : str) : option (str * gmap nat str) :=
  rmatch ml r prev s ∅ (fun _ s' caps => Some (s', caps)).

(** [re.match(r, s)], as a truth value. *)
Definition re_match (ml : bool) (r : regex) (s : str) : bool :=
  bool_decide (is_Some (match_here ml r None s)).

(** [re.search(r, s)], as a truth value: the positions are tried from left
    to right. *)
Fixpoint search_from (ml : bool) (r : regex) (prev : option codepoint)
    (s : str) : bool :=
  match match_here ml r prev s with
  | Some _ => true
  | None =>
      match s with
      | [] => false
      | c :: s' => search_from ml r (Some c) s'
      end
  end.

Definition re_search (ml : bool) (r : regex) (s : str) : bool :=
  search_from ml r None s.

(** A replacement template: literal text and group references [\n]. *)
Inductive repl_item : Type :=
| RText (s : str)
| RGroup (n : nat).

Definition expand (template : list repl_item) (caps : gmap nat str) : str :=
  flat_map (fun it =>
              match it with
              | RText s => s
              | RGroup n => default [] (caps !! n)
              end) template.

(** [re.sub(r, template, s)]: the leftmost match is replaced and the scan
    resumes after it; [skip] counts the characters of the current match
    still to be passed over. After an empty match one character is copied. *)
Fixpoint sub_from (ml : bool) (r : regex) (template : list repl_item)
    (prev : option codepoint) (skip : nat) (s : str) {struct s} : str :=
  match skip with
  | S n =>
      match s with
      | [] => []
      | c :: t => sub_from ml r template (Some c) n t
      end
  | O =>
      match match_here ml r prev s with
      | Some (s', caps) =>
          expand template caps ++
          match s with
          | [] => []
          | c :: t =>
              match (length s - length s')%nat with
              | O => c :: sub_from ml r template (Some c) 0 t
              | S m => sub_from ml r template (Some c) m t
              end
          end
      | None =>
          match s with
          | [] => []
          | c :: t => c :: sub_from ml r template (Some c) 0 t
          end
      end
  end.

Definition re_sub (ml : bool) (r : regex) (template : list repl_item)
    (s : str) : str :=
  sub_from ml r template None 0 s.

(** *** Writing patterns *)

Definition lit (c : codepoint) : regex := Chr (N.eqb c).

Definition is_ascii_upper (c : codepoint) : bool := (65 <=? c)%N && (c <=? 90)%N.
Definition is_ascii_lower (c : codepoint) : bool := (97 <=? c)%N && (c <=? 122)%N.
Definition ascii_lower (c : codepoint) : codepoint :=
  if is_ascii_upper c then (c + 32)%N else c.

(** A literal under [IGNORECASE]. Only the ASCII letters of the patterns
    below have case variants: their other case and, for [i], [k] and [s],
    the four letters U+0130, U+0131, U+212A and U+017F. *)
Definition ieq (c x : codepoint) : bool :=
  (x =? c)%N
  || ((is_ascii_upper c || is_ascii_lower c)
      && ((ascii_lower x =? ascii_lower c)%N
          || ((ascii_lower c =? 105)%N && ((x =? 304)%N || (x =? 305)%N))
          || ((ascii_lower c =? 107)%N && (x =? 8490)%N)
          || ((ascii_lower c =? 115)%N && (x =? 383)%N))).

Definition ilit (c : codepoint) : regex := Chr (ieq c).

Fixpoint seq_of (f : codepoint -> regex) (s : str) : regex :=
  match s with
  | [] => Empty
  | [c] => f c
  | c :: s' => Cat (f c) (seq_of f s')
  end.

(** A literal string, exact and under [IGNORECASE]. *)
Definition rstr (s : string) : regex := seq_of lit (u s).
Definition istr (s : string) : regex := seq_of ilit (u s).

(** [[...]]: one character among [cs]. *)
Definition one_of (s : string) : regex :=
  Chr (fun x => existsb (N.eqb x) (u s)).

Definition in_range (lo hi : string) (c : codepoint) : bool :=
  (ch lo <=? c)%N && (c <=? ch hi)%N.

Definition Plus (r : regex) : regex := Cat r (Star r).

(** [r{3,}] *)
Definition AtLeast3 (r : regex) : regex := Cat r (Cat r (Cat r (Star r))).

Fixpoint alts (rs : list regex) : regex :=
  match rs with
  | [] => Empty
  | [r] => r
  | r :: rs' => Alt r (alts rs')
  end.

Definition cats (rs : list regex) : regex := fold_right Cat Empty rs.

(** [\s], [\d] and [.] *)
Definition WS : regex := Chr is_space.
Definition DIGIT : regex := Chr is_decimal.
Definition DOT : regex := Chr (fun c => negb (c =? NL)%N).

(** ** Cleaning strategies (data_processing.py) *)

(** [r'^[-_=]{3,}|^[—–]{3,}$'] *)
Definition RULE_LINE : regex :=
  Alt (Cat Bol (AtLeast3 (one_of "-_=")))
      (Cat Bol (Cat (AtLeast3 (one_of "—–")) Eol)).

(** [r'^[-=_\s]+$'] *)
Definition SEPARATOR_LINE : regex :=
  cats [Bol;
        Plus (Chr (fun c => existsb (N.eqb c) (u "-=_") || is_space c));
        Eol].

(** The loop of [BaseCleaner.basic_clean]: each [continue] drops the line,
    and a kept line is appended as it was read, not stripped. *)
Fixpoint basic_clean_lines (lines : list str) : list str :=
  match lines with
  | [] => []
  | line :: rest =>
      let s := strip line in
      match s with
      | [] => basic_clean_lines rest
      | _ =>
          if isdigit s && (length s <? 4)%nat then basic_clean_lines rest
          else if (length s <? 3)%nat && negb (str_in s [u "."; u "!"; u "?"])
          then basic_clean_lines rest
          else if re_match false RULE_LINE s then basic_clean_lines rest
          else if re_match false SEPARATOR_LINE s then basic_clean_lines rest
          else line :: basic_clean_lines rest
      end
  end.

Definition basic_clean (text : str) : str :=
  join [NL] (basic_clean_lines (split_on NL text)).

(** [r'\s[a-zA-Z]\s'] *)
Definition ISOLATED_LETTER : regex :=
  cats [WS; Chr (fun c => in_range "a" "z" c || in_range "A" "Z" c); WS].

(** [r'\s+([،؛؟])'], replaced by [r'\1'] *)
Definition SPACE_BEFORE_PUNCT : regex :=
  Cat (Plus WS) (Group 1 (one_of "،؛؟")).

Fixpoint arabic_lines (lines : list str) : list str :=
  match lines with
  | [] => []
  | line :: rest =>
      if (2 <? count_char (ch "|") line)%nat
         || (5 <? count_char (ch "_") line)%nat
      then arabic_lines rest
      else re_sub false ISOLATED_LETTER [RText (u " ")] line
             :: arabic_lines rest
  end.

Definition ArabicCleaner_clean (text : str) : str :=
  let text := basic_clean text in
  let lines := split_on NL text in
  let filtered_lines := arabic_lines lines in
  let text := join [NL] filtered_lines in
  re_sub false SPACE_BEFORE_PUNCT [RGroup 1] text.

(** [r'^Fig\.?\s*\d+.*$'] with [MULTILINE] *)
Definition FIG_CAPTION : regex :=
  cats [Bol; rstr "Fig"; Opt (lit (ch ".")); Star WS; Plus DIGIT; Star DOT;
        Eol].

(** [r'[ \t]+'] *)
Definition BLANKS : regex :=
  Plus (Chr (fun c => (c =? 32)%N || (c =? 9)%N)).

Definition OPERATORS : list codepoint :=
  [ch "="; ch "+"; ch "-"; ch "×"; ch "÷"].

Definition MathPhysicsCleaner_clean (text : str) : str :=
  let text := basic_clean text in
  let text := re_sub true FIG_CAPTION [] text in
  let text :=
    fold_left (fun t op => replace_char op (u " " ++ [op] ++ u " ") t)
      OPERATORS text in
  re_sub false BLANKS [RText (u " ")] text.

(** [r'^(Fig|Shape|Figure)\.?\s*\(?\d+\)?.*$'] with [MULTILINE|IGNORECASE] *)
Definition SCIENCE_CAPTION : regex :=
  cats [Bol; Group 1 (alts [istr "Fig"; istr "Shape"; istr "Figure"]);
        Opt (lit (ch ".")); Star WS; Opt (lit (ch "(")); Plus DIGIT;
        Opt (lit (ch ")")); Star DOT; Eol].

(** [r'^\s*[A-Z]\s*$'] with [MULTILINE] *)
Definition DIAGRAM_LABEL : regex :=
  cats [Bol; Star WS; Chr (in_range "A" "Z"); Star WS; Eol].

(** [r'^\s*[·•●]\s*'] with [MULTILINE], replaced by ['- '] *)
Definition BULLET : regex :=
  cats [Bol; Star WS; one_of "·•●"; Star WS].

Definition ScienceCleaner_clean (text : str) : str :=
  let text := basic_clean text in
  let text := re_sub true SCIENCE_CAPTION [] text in
  let text := re_sub true DIAGRAM_LABEL [] text in
  re_sub true BULLET [RText (u "- ")] text.

(** [r'\s+([A-D]\.)\s+'], replaced by [r'\n\1 '] *)
Definition OPTION_MARKER : regex :=
  cats [Plus WS; Group 1 (Cat (Chr (in_range "A" "D")) (lit (ch ".")));
        Plus WS].

Definition EnglishCleaner_clean (text : str) : str :=
  let text := basic_clean text in
  re_sub false OPTION_MARKER [RText [NL]; RGroup 1; RText (u " ")] text.

(** The four implementations of the [TextCleaner] protocol. *)
Inductive Cleaner : Type :=
| ArabicCleaner
| MathPhysicsCleaner
| ScienceCleaner
| EnglishCleaner.

Definition clean (c : Cleaner) (text : str) : str :=
  match c with
  | ArabicCleaner => ArabicCleaner_clean text
  | MathPhysicsCleaner => MathPhysicsCleaner_clean text
  | ScienceCleaner => ScienceCleaner_clean text
  | EnglishCleaner => EnglishCleaner_clean text
  end.

(** ** Structure-aware chunking *)

(** [DocumentStructureChunker.separators], each searched with
    [IGNORECASE]. *)
Definition separators : list regex :=
  [ (* r"^(Chapter|Unit|Lesson|Lecture)\s+\d+" *)
    cats [Bol;
          Group 1 (alts [istr "Chapter"; istr "Unit"; istr "Lesson";
                         istr "Lecture"]);
          Plus WS; Plus DIGIT];
    (* r"^Section\s+\d+" *)
    cats [Bol; istr "Section"; Plus WS; Plus DIGIT];
    (* r"^(الباب|الفصل|الدرس|الوحدة|المحاضرة)\s+(الأول|...|التاسع|عشر|\d+)" *)
    cats [Bol;
          Group 1 (alts [istr "الباب"; istr "الفصل"; istr "الدرس";
                         istr "الوحدة"; istr "المحاضرة"]);
          Plus WS;
          Group 2 (alts [istr "الأول"; istr "الثاني"; istr "الثالث";
                         istr "الرابع"; istr "الخامس"; istr "السادس";
                         istr "السابع"; istr "الثامن"; istr "التاسع";
                         istr "عشر"; Plus DIGIT])];
    (* r"^\d+\s*-\s*" *)
    cats [Bol; Plus DIGIT; Star WS; lit (ch "-"); Star WS] ].

(** [any(re.search(sep, line, re.IGNORECASE) for sep in self.separators)] *)
Definition is_header (line : str) : bool :=
  existsb (fun sep => re_search false sep line) separators.

Definition SENTENCE_END : list codepoint :=
  [ch "."; ch ":"; ch "!"; ch "?"; ch "؟"].

(** [if current_para: reconstructed.append(" ".join(current_para))] *)
Definition flush (reconstructed current_para : list str) : list str :=
  match current_para with
  | [] => reconstructed
  | _ => reconstructed ++ [join (u " ") current_para]
  end.

(** The loop of [_reconstruct_paragraphs] and the flush after it. *)
Fixpoint reconstruct_lines (lines : list str)
    (reconstructed current_para : list str) : list str :=
  match lines with
  | [] => flush reconstructed current_para
  | line :: rest =>
      let line := strip line in
      match line with
      | [] => reconstruct_lines rest (flush reconstructed current_para) []
      | _ =>
          if is_header line then
            reconstruct_lines rest
              (flush reconstructed current_para
                 ++ [[NL; NL] ++ line ++ [NL; NL]])
              []
          else
            let current_para := current_para ++ [line] in
            if endswith_any SENTENCE_END line then
              reconstruct_lines rest
                (reconstructed ++ [join (u " ") current_para]) []
            else reconstruct_lines rest reconstructed current_para
      end
  end.

Definition _reconstruct_paragraphs (text : str) : str :=
  join [NL; NL] (reconstruct_lines (split_on NL text) [] []).

(** ** Python results and containers *)

Inductive PyExc : Type :=
| KeyError
| IndexError
| ZeroDivisionError.

Inductive Py (A : Type) : Type :=
| Ok (a : A)
| Raise (e : PyExc).
Arguments Ok {A} a.
Arguments Raise {A} e.

Definition py_bind {A B : Type} (m : Py A) (f : A -> Py B) : Py B :=
  match m with
  | Ok a => f a
  | Raise e => Raise e
  end.

Notation "'do' x <- m ; k" := (py_bind m (fun x => k))
  (at level 10, x name, m at level 100, k at level 200).

(** [l[:n]] for a list [l] and an [int] [n]; a negative [n] counts from
    the end. *)
Definition py_slice_to {A : Type} (l : list A) (n : Z) : list A :=
  if (0 <=? n)%Z then take (Z.to_nat n) l
  else take (length l - Z.to_nat (- n)) l.

(** [enumerate(l, start)] *)
Fixpoint enumerate {A : Type} (start : Z) (l : list A) : list (Z * A) :=
  match l with
  | [] => []
  | x :: l' => (start, x) :: enumerate (start + 1) l'
  end.

(** [a / b] on two ints: true division, which raises on a zero divisor. *)
Definition py_truediv (a b : Z) : Py Q :=
  if (b =? 0)%Z then Raise ZeroDivisionError
  else Ok (inject_Z a / inject_Z b)%Q.

(** [s.split()]: the maximal runs of non-whitespace characters. *)
Fixpoint split_ws (s : str) (word : str) : list str :=
  match s with
  | [] => match word with [] => [] | _ => [word] end
  | c :: s' =>
      if is_space c then
        match word with
        | [] => split_ws s' []
        | _ => word :: split_ws s' []
        end
      else split_ws s' (word ++ [c])
  end.

Definition py_split (s : str) : list str := split_ws s [].

(** ** Chunk records *)

Record Metadata : Type := mkMetadata {
  subject : str;
  filename : str;
  source : str;
  chunk_id : Z
}.

(** A document dict. The lexical path adds ["bm25_score"], the vector
    store adds ["distance"] and ["score"], fusion adds ["hybrid_score"];
    a key that is absent is [None]. *)
Record Doc : Type := mkDoc {
  text : str;
  metadata : Metadata;
  bm25_score : option Q;
  distance : option Q;
  score : option Q;
  hybrid_score : option Q
}.

(** [d = doc.copy(); d["bm25_score"] = s] *)
Definition set_bm25_score (d : Doc) (s : Q) : Doc :=
  {| text := text d; metadata := metadata d; bm25_score := Some s;
     distance := distance d; score := score d;
     hybrid_score := hybrid_score d |}.

(** [d = doc.copy(); d["hybrid_score"] = s] *)
Definition set_hybrid_score (d : Doc) (s : Q) : Doc :=
  {| text := text d; metadata := metadata d; bm25_score := bm25_score d;
     distance := distance d; score := score d;
     hybrid_score := Some s |}.

(** A [pathlib.Path], of which the code reads [.name] and [str()]. *)
Record Path : Type := mkPath {
  path_name : str;
  path_str : str
}.

(** ** The libraries behind the code

    [BM25Okapi] and [get_scores] are rank_bm25's index; [argsort] is
    [numpy.argsort] on the score array; [lower] is [str.lower];
    [semantic_search] is the vector store's query;
    [text_splitter_split_text] is the [split_text] of langchain's
    [RecursiveCharacterTextSplitter] with [chunk_size=600],
    [chunk_overlap=200] and the separators blank line, newline, full stop
    and space, space, and the empty string. *)
Class External : Type := {
  BM25 : Type;
  BM25Okapi : list (list str) -> BM25;
  get_scores : BM25 -> list str -> list Q;
  argsort : list Q -> list nat;
  lower : str -> str;
  semantic_search : str -> str -> Z -> list Doc;
  text_splitter_split_text : str -> list str
}.

(** What the code relies on: the index scores every document of its
    corpus, and [argsort] lists the positions of the array by increasing
    score (in an order among equal scores that numpy does not fix). *)
Class ExternalSpec (E : External) : Prop := {
  get_scores_length : forall corpus query,
    length (get_scores (BM25Okapi corpus) query) = length corpus;
  argsort_perm : forall scores,
    Permutation (argsort scores) (seq 0 (length scores));
  argsort_sorted : forall scores,
    StronglySorted
      (fun i j => (nth i scores 0 <= nth j scores 0)%Q) (argsort scores)
}.

(** ** The chunking pipeline *)

Section Pipeline.
Context {E : External}.

(** [DocumentStructureChunker.split_text] *)
Definition split_text (text : str) : list str :=
  let clean_struct_text := _reconstruct_paragraphs text in
  text_splitter_split_text clean_struct_text.

(** The loop of [process_element_chunks]. *)
Fixpoint chunk_records (items : list (Z * str)) (pdf_file : Path)
    (subject : str) : list Doc :=
  match items with
  | [] => []
  | (idx, chunk_text) :: rest =>
      if (length (strip chunk_text) <? 50)%nat
      then chunk_records rest pdf_file subject
      else {| text := chunk_text;
              metadata := {| subject := subject;
                             filename := path_name pdf_file;
                             source := path_str pdf_file;
                             chunk_id := idx |};
              bm25_score := None; distance := None; score := None;
              hybrid_score := None |}
           :: chunk_records rest pdf_file subject
  end.

Definition process_element_chunks (text : str) (pdf_file : Path)
    (subject : str) : list Doc :=
  let chunks := split_text text in
  chunk_records (enumerate 0 chunks) pdf_file subject.

End Pipeline.

(** ** config.py *)

Definition TOP_K_RETRIEVAL : Z := 5.

(** [HYBRID_SEARCH_WEIGHTS["semantic"]] and [HYBRID_SEARCH_WEIGHTS["bm25"]] *)
Definition HYBRID_SEARCH_WEIGHTS_semantic : Q := 6 # 10.
Definition HYBRID_SEARCH_WEIGHTS_bm25 : Q := 4 # 10.

(** The default of the parameter [k] of [reciprocal_rank_fusion]. *)
Definition RRF_K : Z := 60.

(** ** The hybrid retriever (hybrid_retriever.py) *)

(** [rrf_scores] is a [defaultdict(float)]: an insertion-ordered map.
    [rrf_scores[key] += v] keeps the place of a key that is present and
    appends a missing key, starting from [float() = 0]. *)
Fixpoint dd_add (key : str) (v : Q) (m : list (str * Q)) : list (str * Q) :=
  match m with
  | [] => [(key, (0 + v)%Q)]
  | (k', x) :: m' =>
      if decide (k' = key) then (k', (x + v)%Q) :: m'
      else (k', x) :: dd_add key v m'
  end.

(** The two dicts the fusion loops fill. *)
Record FusionState : Type := mkFusion {
  rrf_scores : list (str * Q);
  doc_map : gmap str Doc
}.

(** [for rank, doc in enumerate(bm25_results, 1)] *)
Fixpoint bm25_loop (k : Z) (items : list (Z * Doc)) (st : FusionState)
  : Py FusionState :=
  match items with
  | [] => Ok st
  | (rank, doc) :: rest =>
      let doc_text := text doc in
      do r <- py_truediv 1 (k + rank);
      bm25_loop k rest
        {| rrf_scores := dd_add doc_text (HYBRID_SEARCH_WEIGHTS_bm25 * r)%Q (rrf_scores st);
           doc_map := <[doc_text := doc]> (doc_map st) |}
  end.

(** [for rank, doc in enumerate(semantic_results, 1)] *)
Fixpoint semantic_loop (k : Z) (items : list (Z * Doc)) (st : FusionState)
  : Py FusionState :=
  match items with
  | [] => Ok st
  | (rank, doc) :: rest =>
      let doc_text := text doc in
      do r <- py_truediv 1 (k + rank);
      semantic_loop k rest
        {| rrf_scores :=
             dd_add doc_text (HYBRID_SEARCH_WEIGHTS_semantic * r)%Q (rrf_scores st);
           doc_map :=
             match doc_map st !! doc_text with
             | Some _ => doc_map st
             | None => <[doc_text := doc]> (doc_map st)
             end |}
  end.

(** [sorted(items, key=lambda x: x[1], reverse=True)]: Python's sort is
    stable, also under [reverse=True]; items whose keys compare equal keep
    their input order. *)
Fixpoint insert_desc (x : str * Q) (l : list (str * Q)) : list (str * Q) :=
  match l with
  | [] => [x]
  | y :: l' =>
      if Qlt_le_dec (snd x) (snd y) then y :: insert_desc x l'
      else x :: y :: l'
  end.

Fixpoint sorted_desc (l : list (str * Q)) : list (str * Q) :=
  match l with
  | [] => []
  | x :: l' => insert_desc x (sorted_desc l')
  end.

(** [for doc_text, score in sorted_docs] *)
Fixpoint format_results (dm : gmap str Doc) (sorted_docs : list (str * Q))
  : Py (list Doc) :=
  match sorted_docs with
  | [] => Ok []
  | (doc_text, sc) :: rest =>
      match dm !! doc_text with
      | None => Raise KeyError
      | Some d =>
          do results <- format_results dm rest;
          Ok (set_hybrid_score d sc :: results)
      end
  end.

Definition reciprocal_rank_fusion
    (bm25_results semantic_results : list Doc) (k : Z) : Py (list Doc) :=
  do st1 <- bm25_loop k (enumerate 1 bm25_results)
              {| rrf_scores := []; doc_map := ∅ |};
  do st2 <- semantic_loop k (enumerate 1 semantic_results) st1;
  format_results (doc_map st2) (sorted_desc (rrf_scores st2)).

Section Retriever.
Context {E : External}.

(** The retriever object: [self.bm25_indices] and [self.corpus_docs]. *)
Record HybridRetriever : Type := mkRetriever {
  bm25_indices : gmap str BM25;
  corpus_docs : gmap str (list Doc)
}.

(** [HybridRetriever(vector_store)] *)
Definition new_retriever : HybridRetriever :=
  {| bm25_indices := ∅; corpus_docs := ∅ |}.

(** [text.lower().split()] *)
Definition tokenize (text : str) : list str := py_split (lower text).

(** [build_bm25_index]: the printed line and the retriever afterwards. *)
Definition build_bm25_index (self : HybridRetriever) (subject : str)
    (documents : list Doc) : list str * HybridRetriever :=
  match documents with
  | [] => ([u "No documents to index for " ++ subject], self)
  | _ =>
      let tokenized_corpus := map (fun doc => tokenize (text doc)) documents in
      ([u "Built BM25 index for " ++ subject ++ u ": "
          ++ str_of_nat (length documents) ++ u " documents"],
       {| bm25_indices :=
            <[subject := BM25Okapi tokenized_corpus]> (bm25_indices self);
          corpus_docs := <[subject := documents]> (corpus_docs self) |})
  end.

(** [for idx in top_indices] of [bm25_search]. *)
Fixpoint bm25_results_of (self : HybridRetriever) (subject : str)
    (bm25_scores : list Q) (top_indices : list nat) : Py (list Doc) :=
  match top_indices with
  | [] => Ok []
  | idx :: rest =>
      match bm25_scores !! idx with
      | None => Raise IndexError
      | Some s =>
          if Qlt_le_dec 0 s then
            match corpus_docs self !! subject with
            | None => Raise KeyError
            | Some docs =>
                match docs !! idx with
                | None => Raise IndexError
                | Some doc =>
                    do results <- bm25_results_of self subject bm25_scores rest;
                    Ok (set_bm25_score doc s :: results)
                end
            end
          else bm25_results_of self subject bm25_scores rest
      end
  end.

(** [bm25_search]: the printed lines and the outcome. *)
Definition bm25_search (self : HybridRetriever) (query subject : str)
    (top_k : Z) : list str * Py (list Doc) :=
  match bm25_indices self !! subject with
  | None => ([u "Warning: No BM25 index for " ++ subject], Ok [])
  | Some index =>
      let tokenized_query := tokenize query in
      let bm25_scores := get_scores index tokenized_query in
      let top_indices := py_slice_to (rev (argsort bm25_scores)) top_k in
      ([], bm25_results_of self subject bm25_scores top_indices)
  end.

(** [search]: the printed lines and the outcome. *)
Definition search (self : HybridRetriever) (query subject : str)
    (top_k : Z) : list str * Py (list Doc) :=
  let retrieve_k := (top_k * 2)%Z in
  let (out, bm25_outcome) := bm25_search self query subject retrieve_k in
  (out,
   do bm25_results <- bm25_outcome;
   let semantic_results := semantic_search query subject retrieve_k in
   do hybrid_results <-
     reciprocal_rank_fusion bm25_results semantic_results RRF_K;
   Ok (py_slice_to hybrid_results top_k)).

(** The retrievers the program can reach: a new one, then any number of
    index builds. *)
Inductive built : HybridRetriever -> Prop :=
| built_new : built new_retriever
| built_index self subject documents :
    built self -> built (snd (build_bm25_index self subject documents)).

(** Every index of a retriever has its corpus beside it and scores each
    document of it. *)
Definition retriever_ok (self : HybridRetriever) : Prop :=
  forall subject index,
    bm25_indices self !! subject = Some index ->
    exists docs, corpus_docs self !! subject = Some docs /\
                 forall query, length (get_scores index query) = length docs.

End Retriever.

(** ** Vocabulary of the statements *)

Definition texts (l : list Doc) : list str := map text l.

Definition keys (m : list (str * Q)) : list str := map fst m.

(** [m[t]] in an insertion-ordered map. *)
Fixpoint assoc (t : str) (m : list (str * Q)) : option Q :=
  match m with
  | [] => None
  | (k', x) :: m' => if decide (k' = t) then Some x else assoc t m'
  end.

(** The 1-based position of the first document with text [t], counted
    from [start]. *)
Fixpoint rank_from (start : Z) (t : str) (l : list Doc) : option Z :=
  match l with
  | [] => None
  | d :: l' =>
      if decide (text d = t) then Some start
      else rank_from (start + 1) t l'
  end.

Definition rank_of (t : str) (l : list Doc) : option Z := rank_from 1 t l.

(** [1 / (k + rank)] *)
Definition reciprocal (k rank : Z) : Q := (inject_Z 1 / inject_Z (k + rank))%Q.

(** The term of one list in the fused score: [w * 1/(k + rank)], and 0
    for a document that the list does not hold. *)
Definition rrf_term (w : Q) (k : Z) (rank : option Z) : Q :=
  match rank with
  | Some r => (w * reciprocal k r)%Q
  | None => 0%Q
  end.

(** The sum of [w * 1/(k + rank)] over every place where [t] occurs. *)
Fixpoint contrib (w : Q) (k : Z) (t : str) (items : list (Z * Doc)) : Q :=
  match items with
  | [] => 0%Q
  | (rank, d) :: rest =>
      ((if decide (text d = t) then w * reciprocal k rank else 0)
       + contrib w k t rest)%Q
  end.

(** The position at which [t] is first seen in [ts]. *)
Fixpoint first_seen (t : str) (ts : list str) : nat :=
  match ts with
  | [] => 0
  | x :: ts' => if decide (x = t) then 0 else S (first_seen t ts')
  end.

(** The record that the fusion keeps under a text. The lexical loop stores
    each record over the one stored under the same text before it, so of
    the lexical records with the text [t] the last one stays; the semantic
    loop stores a record only under a text that has none yet, so of the
    semantic records the first one stays, and only for a text that the
    lexical list does not hold. *)
Fixpoint last_with_text (t : str) (l : list Doc) : option Doc :=
  match l with
  | [] => None
  | d :: l' =>
      match last_with_text t l' with
      | Some d' => Some d'
      | None => if decide (text d = t) then Some d else None
      end
  end.

Fixpoint first_with_text (t : str) (l : list Doc) : option Doc :=
  match l with
  | [] => None
  | d :: l' => if decide (text d = t) then Some d else first_with_text t l'
  end.

Definition kept_record (t : str) (b s : list Doc) : option Doc :=
  match last_with_text t b with
  | Some d => Some d
  | None => first_with_text t s
  end.

(** The fused score an entry carries; 0 stands for a missing key. *)
Definition hscore (d : Doc) : Q := default 0%Q (hybrid_score d).

(** The lexical score an entry carries. *)
Definition lscore (d : Doc) : Q := default 0%Q (bm25_score d).

(** The score dict after the two loops, and the document dict. *)
Fixpoint add_scores (w : Q) (k : Z) (items : list (Z * Doc))
    (m : list (str * Q)) : list (str * Q) :=
  match items with
  | [] => m
  | (rank, d) :: rest =>
      add_scores w k rest (dd_add (text d) (w * reciprocal k rank)%Q m)
  end.

Fixpoint lex_docs (l : list Doc) (dm : gmap str Doc) : gmap str Doc :=
  match l with
  | [] => dm
  | d :: l' => lex_docs l' (<[text d := d]> dm)
  end.

Fixpoint sem_docs (l : list Doc) (dm : gmap str Doc) : gmap str Doc :=
  match l with
  | [] => dm
  | d :: l' =>
      sem_docs l'
        match dm !! text d with
        | Some _ => dm
        | None => <[text d := d]> dm
        end
  end.

Definition fused_scores (k : Z) (b s : list Doc) : list (str * Q) :=
  add_scores HYBRID_SEARCH_WEIGHTS_semantic k (enumerate 1 s)
    (add_scores HYBRID_SEARCH_WEIGHTS_bm25 k (enumerate 1 b) []).

Definition fused_docs (b s : list Doc) : gmap str Doc :=
  sem_docs s (lex_docs b ∅).

(** The texts in the order in which the loops first meet them. *)
Fixpoint seen_order (acc : list str) (ts : list str) : list str :=
  match ts with
  | [] => acc
  | t :: ts' =>
      seen_order (if decide (t ∈ acc) then acc else acc ++ [t]) ts'
  end.

(** An output entry: the stored record with its fused score set. *)
Definition entry_of (dm : gmap str Doc) (item : str * Q) (d : Doc) : Prop :=
  exists d0, dm !! fst item = Some d0 /\ d = set_hybrid_score d0 (snd item).

(** The order of the sorted score items: by decreasing score, and by
    increasing [pos] among equal scores. *)
Definition stable_desc (pos : str -> nat) (x y : str * Q) : Prop :=
  (snd y < snd x)%Q \/ ((snd y == snd x)%Q /\ (pos (fst x) < pos (fst y))%nat).

(** A chunk is kept when its stripped text has 50 characters or more. *)
Definition kept (item : Z * str) : bool :=
  negb (length (strip (snd item)) <? 50).

(** A line that [basic_clean] keeps. *)
Definition keeps (line : str) : bool :=
  match basic_clean_lines [line] with
  | [] => false
  | _ => true
  end.

(** The score item of a document met once. *)
Definition item_of (w : Q) (k : Z) (it : Z * Doc) : str * Q :=
  (text (snd it), (0 + w * reciprocal k (fst it))%Q).

(** [matches ml r prev s prev' s']: [r] can match the head of [s], which
    follows the character [prev], and leave [s'], which then follows
    [prev']. *)
Inductive matches (ml : bool)
  : regex -> option codepoint -> str -> option codepoint -> str -> Prop :=
| m_empty prev s : matches ml Empty prev s prev s
| m_chr (p : codepoint -> bool) prev c s :
    p c = true -> matches ml (Chr p) prev (c :: s) (Some c) s
| m_cat r1 r2 p0 s0 p1 s1 p2 s2 :
    matches ml r1 p0 s0 p1 s1 -> matches ml r2 p1 s1 p2 s2 ->
    matches ml (Cat r1 r2) p0 s0 p2 s2
| m_alt_l r1 r2 p0 s0 p1 s1 :
    matches ml r1 p0 s0 p1 s1 -> matches ml (Alt r1 r2) p0 s0 p1 s1
| m_alt_r r1 r2 p0 s0 p1 s1 :
    matches ml r2 p0 s0 p1 s1 -> matches ml (Alt r1 r2) p0 s0 p1 s1
| m_opt_some r p0 s0 p1 s1 :
    matches ml r p0 s0 p1 s1 -> matches ml (Opt r) p0 s0 p1 s1
| m_opt_none r prev s : matches ml (Opt r) prev s prev s
| m_star_stop r prev s : matches ml (Star r) prev s prev s
| m_star_step r p0 s0 p1 s1 p2 s2 :
    matches ml r p0 s0 p1 s1 -> length s1 < length s0 ->
    matches ml (Star r) p1 s1 p2 s2 ->
    matches ml (Star r) p0 s0 p2 s2
| m_group n r p0 s0 p1 s1 :
    matches ml r p0 s0 p1 s1 -> matches ml (Group n r) p0 s0 p1 s1
| m_bol prev s : at_bol ml prev = true -> matches ml Bol prev s prev s
| m_eol prev s : at_eol ml s = true -> matches ml Eol prev s prev s.

(** ** Stand-ins for the libraries, for running the code on examples *)

(** Number of the words of [doc] that the query holds. *)
Definition overlap_score (query doc : list str) : Q :=
  inject_Z
    (Z.of_nat (length (List.filter (fun w => bool_decide (w ∈ query)) doc))).

Fixpoint insert_index (scores : list Q) (i : nat) (l : list nat) : list nat :=
  match l with
  | [] => [i]
  | j :: l' =>
      if Qlt_le_dec (nth j scores 0%Q) (nth i scores 0%Q)
      then j :: insert_index scores i l'
      else i :: j :: l'
  end.

(** An [argsort] by insertion. *)
Definition argsort_by_insertion (scores : list Q) : list nat :=
  fold_right (insert_index scores) [] (seq 0 (length scores)).

(** An instance of the libraries: an index that scores by word overlap,
    a vector store that answers [sem] and a splitter that answers
    [chunks]. *)
Definition stub_external (sem : list Doc) (chunks : list str) : External :=
  {| BM25 := list (list str);
     BM25Okapi := fun corpus => corpus;
     get_scores := fun corpus query => map (overlap_score query) corpus;
     argsort := argsort_by_insertion;
     lower := map ascii_lower;
     semantic_search := fun _ _ _ => sem;
     text_splitter_split_text := fun _ => chunks |}.

(** A chunk record of the subject physics. *)
Definition chunk (t : string) (id : Z) : Doc :=
  {| text := u t;
     metadata := {| subject := u "physics"; filename := u "book.pdf";
                    source := u "data/physics/book.pdf"; chunk_id := id |};
     bm25_score := None; distance := None; score := None;
     hybrid_score := None |}.

Definition alpha_chunk : Doc :=
  chunk "alpha particles are helium nuclei emitted by heavy unstable atoms" 0.

Definition gamma_chunk : Doc :=
  chunk "gamma rays are electromagnetic waves of very short wavelength" 1.

Definition decay_chunk : Doc :=
  chunk "the half life of an isotope is the time for half of it to decay" 2.

(** The same exercise line, met in two places of a book. *)
Definition exercise_chunk (id : Z) : Doc :=
  chunk "Solve the following problems and show every step of your work." id.

(** The libraries with an empty vector store and a splitter that returns
    nothing. *)
Definition demo_libraries : External := stub_external [] [].

(** A retriever with one index over three chunks. *)
Definition demo_retriever : @HybridRetriever demo_libraries :=
  snd (build_bm25_index (E := demo_libraries) new_retriever (u "physics")
         [alpha_chunk; gamma_chunk; decay_chunk]).

(** A vector store that answers two chunks. *)
Definition demo_store : External :=
  stub_external [gamma_chunk; alpha_chunk] [].

(** A vector store that answers three chunks, two of them with the same
    text. *)
Definition repeating_store : External :=
  stub_external [alpha_chunk; exercise_chunk 3; exercise_chunk 8] [].

(** A book for the examples: two paragraphs of 590 characters with a
    chapter line between them. The splitter cannot put two of the three
    parts into one chunk of 600 characters and returns them one by one. *)
Definition paragraph (c : string) : str := repeat (ch c) 590.

Definition book_text : str :=
  paragraph "a" ++ [NL] ++ u "Chapter 2" ++ [NL] ++ paragraph "b".

Definition book_chunks : list str :=
  [paragraph "a"; u "Chapter 2"; paragraph "b"].

Definition book_pdf : Path :=
  {| path_name := u "book.pdf"; path_str := u "data/physics/book.pdf" |}.

(** * Part II: properties *)

(** ** The code on small inputs *)

Example math_operators_are_padded :
  clean MathPhysicsCleaner (u "x=2+3") = u "x = 2 + 3".
Proof. vm_compute. reflexivity. Qed.

Example baseline_drops_noise :
  basic_clean (u "Title" ++ [NL] ++ u "12" ++ [NL] ++ u "-----" ++ [NL]
               ++ [NL] ++ u "Body text")
  = u "Title" ++ [NL] ++ u "Body text".
Proof. vm_compute. reflexivity. Qed.

Example english_options_on_own_lines :
  clean EnglishCleaner (u "Pick one: A. red B. blue")
  = u "Pick one:" ++ [NL] ++ u "A. red" ++ [NL] ++ u "B. blue".
Proof. vm_compute. reflexivity. Qed.

Example arabic_punctuation_hugs_word :
  clean ArabicCleaner (u "ما هذا ؟") = u "ما هذا؟".
Proof. vm_compute. reflexivity. Qed.

Example science_bullets_become_dashes :
  clean ScienceCleaner (u "• water") = u "- water".
Proof. vm_compute. reflexivity. Qed.

Example lesson_line_is_set_apart :
  _reconstruct_paragraphs
    (u "The cell is" ++ [NL] ++ u "the unit of life." ++ [NL] ++ u "Lesson 2"
     ++ [NL] ++ u "Tissues")
  = u "The cell is the unit of life." ++ [NL; NL; NL; NL] ++ u "Lesson 2"
    ++ [NL; NL; NL; NL] ++ u "Tissues".
Proof. vm_compute. reflexivity. Qed.

(** The chunk on gamma rays, second in the lexical list and first in the
    semantic one, comes out first with [0.4/62 + 0.6/61]. *)
Example fusion_of_two_lists :
  match reciprocal_rank_fusion [alpha_chunk; gamma_chunk]
          [gamma_chunk; decay_chunk] 60 with
  | Ok out => map (fun d => (chunk_id (metadata d), Qred (hscore d))) out
  | Raise _ => []
  end
  = [(1%Z, 154 # 9455); (2%Z, 3 # 310); (0%Z, 2 # 305)]%Q.
Proof. vm_compute. reflexivity. Qed.

(** ** Score dicts *)

Lemma dd_add_keys t v m :
  keys (dd_add t v m) = if decide (t ∈ keys m) then keys m else keys m ++ [t].
Proof.
  induction m as [|[k' x] m IH]; simpl.
  - done.
  - destruct (decide (k' = t)) as [->|Hne]; simpl.
    + rewrite decide_True; [done | set_solver].
    + rewrite IH. destruct (decide (t ∈ keys m)).
      * rewrite decide_True; [done | set_solver].
      * rewrite decide_False; [done | set_solver].
Qed.

Lemma assoc_None t m : assoc t m = None <-> t ∉ keys m.
Proof.
  induction m as [|[k' x] m IH]; simpl.
  - set_solver.
  - case_decide; [set_solver | rewrite IH; set_solver].
Qed.

Lemma assoc_elem t x m : NoDup (keys m) -> (t, x) ∈ m -> assoc t m = Some x.
Proof.
  induction m as [|[k' y] m IH]; simpl; intros Hnd Hin.
  - set_solver.
  - apply NoDup_cons in Hnd as [Hk Hnd].
    apply elem_of_cons in Hin as [Heq|Hin].
    + injection Heq as -> ->. by rewrite decide_True.
    + rewrite decide_False; [by apply IH |].
      intros ->. apply Hk. unfold keys. apply list_elem_of_fmap. by exists (t, x).
Qed.

Lemma elem_assoc t x m : assoc t m = Some x -> (t, x) ∈ m.
Proof.
  induction m as [|[k' y] m IH]; simpl; [done |].
  case_decide; [intros [= ->]; subst; set_solver | set_solver].
Qed.

(** The value under [t] after [rrf_scores[key] += v]. *)
Lemma dd_add_assoc key v m t :
  assoc t (dd_add key v m)
  = if decide (key = t) then Some (default 0%Q (assoc t m) + v)%Q
    else assoc t m.
Proof.
  induction m as [|[k' x] m IH]; simpl.
  - repeat case_decide; simplify_eq; done.
  - destruct (decide (k' = key)) as [->|Hne]; simpl;
      repeat case_decide; simplify_eq; done.
Qed.

Lemma dd_add_NoDup key v m : NoDup (keys m) -> NoDup (keys (dd_add key v m)).
Proof.
  intros Hnd. rewrite dd_add_keys. case_decide; [done |].
  apply NoDup_app. split_and!; [done | set_solver | apply NoDup_singleton].
Qed.

(** ** The loops of the fusion never divide by zero for [k >= 0] *)

Lemma py_truediv_ok k rank :
  (0 < k + rank)%Z -> py_truediv 1 (k + rank) = Ok (reciprocal k rank).
Proof.
  intros H. unfold py_truediv.
  destruct (Z.eqb_spec (k + rank) 0); [lia | done].
Qed.

Lemma bm25_loop_run k l start st :
  (0 < k + start)%Z ->
  bm25_loop k (enumerate start l) st
  = Ok {| rrf_scores :=
            add_scores HYBRID_SEARCH_WEIGHTS_bm25 k (enumerate start l) (rrf_scores st);
          doc_map := lex_docs l (doc_map st) |}.
Proof.
  revert start st. induction l as [|d l IH]; intros start st H; simpl.
  - by destruct st.
  - rewrite py_truediv_ok by done. simpl. rewrite IH by lia. done.
Qed.

Lemma semantic_loop_run k l start st :
  (0 < k + start)%Z ->
  semantic_loop k (enumerate start l) st
  = Ok {| rrf_scores :=
            add_scores HYBRID_SEARCH_WEIGHTS_semantic k (enumerate start l) (rrf_scores st);
          doc_map := sem_docs l (doc_map st) |}.
Proof.
  revert start st. induction l as [|d l IH]; intros start st H; simpl.
  - by destruct st.
  - rewrite py_truediv_ok by done. simpl. rewrite IH by lia. done.
Qed.

(** ** Keys of the score dict: first-seen order *)

Lemma add_scores_keys w k items m :
  keys (add_scores w k items m) = seen_order (keys m) (texts (map snd items)).
Proof.
  revert m. induction items as [|[rank d] items IH]; intros m; simpl; [done |].
  rewrite IH, dd_add_keys. done.
Qed.

Lemma enumerate_snd {A} start (l : list A) : map snd (enumerate start l) = l.
Proof. revert start. induction l; intros; simpl; [done | by f_equal]. Qed.

Lemma seen_order_app acc ts1 ts2 :
  seen_order acc (ts1 ++ ts2) = seen_order (seen_order acc ts1) ts2.
Proof. revert acc. induction ts1; intros; simpl; [done | by rewrite IHts1]. Qed.

Lemma fused_scores_keys k b s :
  keys (fused_scores k b s) = seen_order [] (texts b ++ texts s).
Proof.
  unfold fused_scores. rewrite !add_scores_keys, !enumerate_snd.
  by rewrite seen_order_app.
Qed.

Lemma first_seen_cons_ne x t ts :
  x <> t -> first_seen t (x :: ts) = S (first_seen t ts).
Proof. intros H. simpl. by rewrite decide_False. Qed.

Lemma StronglySorted_weaken {A} (R1 R2 : A -> A -> Prop) l :
  (forall a b, a ∈ l -> b ∈ l -> R1 a b -> R2 a b) ->
  StronglySorted R1 l -> StronglySorted R2 l.
Proof.
  intros Himp Hs. induction Hs as [|a l Hs IH Hall]; constructor.
  - apply IH. intros x y Hx Hy. apply Himp; set_solver.
  - rewrite Forall_forall in *. intros y Hy. apply Himp; [set_solver | set_solver |].
    by apply Hall.
Qed.

(** The keys that a pass over [ts] adds come after the old ones, are new,
    and stand in the order in which [ts] first shows them. *)
Lemma seen_order_spec ts : forall acc,
  NoDup acc ->
  exists new,
    seen_order acc ts = acc ++ new /\
    NoDup (acc ++ new) /\
    (forall t, t ∈ new <-> t ∈ ts /\ t ∉ acc) /\
    StronglySorted (fun a b => first_seen a ts < first_seen b ts) new.
Proof.
  induction ts as [|x ts IH]; intros acc Hnd; cbn [seen_order].
  - exists []. rewrite app_nil_r. split_and!; [done | done | set_solver | constructor].
  - destruct (decide (x ∈ acc)) as [Hin|Hnin].
    + destruct (IH acc Hnd) as (new & -> & Hnd' & Hmem & Hsort).
      exists new. split_and!; [done | done | |].
      * intros t. rewrite Hmem. set_solver.
      * eapply StronglySorted_weaken; [| exact Hsort].
        intros a b' Ha Hb Hlt. cbv beta in Hlt.
        rewrite !first_seen_cons_ne; [lia | |];
          intros ->; [apply Hmem in Hb | apply Hmem in Ha]; tauto.
    + assert (Hnd1 : NoDup (acc ++ [x])).
      { apply NoDup_app. split_and!; [done | set_solver | apply NoDup_singleton]. }
      destruct (IH _ Hnd1) as (new & -> & Hnd' & Hmem & Hsort).
      exists (x :: new). rewrite <- app_assoc in *. cbn [app] in *.
      split_and!; [done | done | |].
      * intros t. rewrite elem_of_cons, Hmem. 
        destruct (decide (t = x)); set_solver.
      * constructor.
        -- eapply StronglySorted_weaken; [| exact Hsort].
           intros a b' Ha Hb Hlt. cbv beta in Hlt.
           rewrite !first_seen_cons_ne; [lia | |];
             intros ->; [apply Hmem in Hb | apply Hmem in Ha]; set_solver.
        -- apply Forall_forall. intros a Ha. simpl. rewrite decide_True by done.
           rewrite decide_False; [lia |].
           intros ->. apply Hmem in Ha. set_solver.
Qed.

(** ** Values of the score dict *)

Lemma add_scores_NoDup w k items m :
  NoDup (keys m) -> NoDup (keys (add_scores w k items m)).
Proof.
  revert m. induction items as [|[rank d] items IH]; intros m H; simpl; [done |].
  by apply IH, dd_add_NoDup.
Qed.

(** Every pass adds to the value of [t] its contribution. *)
Lemma add_scores_value w k t items : forall m,
  (default 0 (assoc t (add_scores w k items m))
   == default 0 (assoc t m) + contrib w k t items)%Q.
Proof.
  induction items as [|[rank d] items IH]; intros m; simpl.
  - ring.
  - rewrite IH, dd_add_assoc. destruct (decide (text d = t)); simpl; ring.
Qed.

Lemma reciprocal_pos k rank : (0 < k + rank)%Z -> (0 < reciprocal k rank)%Q.
Proof.
  intros H. unfold reciprocal. apply Qlt_shift_div_l.
  - change 0%Q with (inject_Z 0). rewrite <- Zlt_Qlt. done.
  - rewrite Qmult_0_l. reflexivity.
Qed.

Lemma contrib_nonneg w k t l start :
  (0 < w)%Q -> (0 < k + start)%Z -> (0 <= contrib w k t (enumerate start l))%Q.
Proof.
  intros Hw. revert start. induction l as [|d l IH]; intros start H; simpl.
  - apply Qle_refl.
  - specialize (IH (start + 1)%Z ltac:(lia)).
    case_decide; [| lra].
    pose proof (Qmult_lt_0_compat _ _ Hw (reciprocal_pos k start H)). lra.
Qed.

Lemma contrib_pos w k t l start :
  (0 < w)%Q -> (0 < k + start)%Z -> t ∈ texts l ->
  (0 < contrib w k t (enumerate start l))%Q.
Proof.
  intros Hw. revert start. induction l as [|d l IH]; intros start H Hin; simpl.
  - by apply elem_of_nil in Hin.
  - destruct (decide (text d = t)) as [Heq|Hne].
    + pose proof (contrib_nonneg w k t l (start + 1) Hw ltac:(lia)).
      pose proof (Qmult_lt_0_compat _ _ Hw (reciprocal_pos k start H)). lra.
    + rewrite Qplus_0_l. apply IH; [lia |].
      simpl in Hin. apply elem_of_cons in Hin as [?|?]; [congruence | done].
Qed.

Lemma contrib_absent w k t l start :
  t ∉ texts l -> (contrib w k t (enumerate start l) == 0)%Q.
Proof.
  intros Hnin. revert start. induction l as [|d l IH]; intros start; simpl.
  - reflexivity.
  - rewrite decide_False; [| intros Heq; apply Hnin; simpl; set_solver].
    rewrite IH; [ring | simpl in Hnin; set_solver].
Qed.

(** In a list that holds no text twice, the contribution of a text is the
    single term of its rank. *)
Lemma contrib_rank w k t l : forall start,
  NoDup (texts l) ->
  (contrib w k t (enumerate start l) == rrf_term w k (rank_from start t l))%Q.
Proof.
  induction l as [|d l IH]; intros start Hnd; simpl.
  - reflexivity.
  - apply NoDup_cons in Hnd as [Hd Hnd].
    destruct (decide (text d = t)) as [Heq|Hne]; simpl.
    + rewrite contrib_absent by (by rewrite <- Heq). ring.
    + rewrite IH by done. ring.
Qed.

(** ** The stable sort *)

Lemma insert_desc_perm x l : Permutation (insert_desc x l) (x :: l).
Proof.
  induction l as [|y l IH]; simpl; [done |].
  destruct (Qlt_le_dec (snd x) (snd y)); [| done].
  rewrite IH. apply perm_swap.
Qed.

Lemma sorted_desc_perm l : Permutation (sorted_desc l) l.
Proof.
  induction l as [|x l IH]; simpl; [done |].
  rewrite insert_desc_perm. by constructor.
Qed.

Lemma stable_desc_le pos x y : stable_desc pos x y -> (snd y <= snd x)%Q.
Proof. intros [H|[H _]]; lra. Qed.

Lemma insert_desc_stable pos x l :
  StronglySorted (stable_desc pos) l ->
  Forall (fun y => pos (fst x) < pos (fst y)) l ->
  StronglySorted (stable_desc pos) (insert_desc x l).
Proof.
  induction l as [|y l IH]; intros Hs Hpos; simpl.
  - repeat constructor.
  - apply StronglySorted_inv in Hs as [Hs Hy].
    apply Forall_cons in Hpos as [Hxy Hpos].
    destruct (Qlt_le_dec (snd x) (snd y)) as [Hlt|Hle].
    + constructor; [by apply IH |].
      rewrite insert_desc_perm. constructor; [by left | done].
    + constructor; [by constructor |].
      constructor.
      * destruct (Qlt_le_dec (snd y) (snd x)); [by left |].
        right. split; [lra | done].
      * rewrite Forall_forall in *. intros z Hz.
        pose proof (stable_desc_le _ _ _ (Hy z Hz)).
        destruct (Qlt_le_dec (snd z) (snd x)); [by left |].
        right. split; [lra | by apply Hpos].
Qed.

(** Sorting a list whose items stand in increasing [pos] order gives the
    items by decreasing score, and by increasing [pos] among equal
    scores. *)
Lemma sorted_desc_stable pos l :
  StronglySorted (fun x y => pos (fst x) < pos (fst y)) l ->
  StronglySorted (stable_desc pos) (sorted_desc l).
Proof.
  induction 1 as [|x l Hs IH Hx]; simpl; [constructor |].
  apply insert_desc_stable; [done |]. by rewrite sorted_desc_perm.
Qed.

(** ** The result list *)

Lemma format_results_ok dm items :
  (forall t, t ∈ keys items -> is_Some (dm !! t)) ->
  exists out, format_results dm items = Ok out /\
              Forall2 (entry_of dm) items out.
Proof.
  induction items as [|[t sc] items IH]; intros Hdom; simpl.
  - exists []. split; [done | constructor].
  - destruct (Hdom t) as [d Hd]; [set_solver |]. rewrite Hd.
    destruct IH as (out & -> & Hall); [intros; apply Hdom; set_solver |].
    simpl. eexists. split; [done |]. constructor; [| done].
    exists d. done.
Qed.

Lemma lex_docs_dom l : forall dm t,
  is_Some (lex_docs l dm !! t) <-> t ∈ texts l \/ is_Some (dm !! t).
Proof.
  induction l as [|d l IH]; intros dm t; simpl.
  - set_solver.
  - rewrite IH, lookup_insert_is_Some. rewrite elem_of_cons.
    destruct (decide (text d = t)); naive_solver.
Qed.

Lemma sem_docs_dom l : forall dm t,
  is_Some (sem_docs l dm !! t) <-> t ∈ texts l \/ is_Some (dm !! t).
Proof.
  induction l as [|d l IH]; intros dm t; simpl.
  - set_solver.
  - rewrite IH, elem_of_cons. destruct (dm !! text d) eqn:Hd.
    + destruct (decide (text d = t)) as [<-|]; [rewrite Hd |]; naive_solver.
    + rewrite lookup_insert_is_Some.
      destruct (decide (text d = t)); naive_solver.
Qed.

(** A text of the lexical list keeps a record of the lexical list. *)
Lemma lex_docs_lookup l : forall dm t,
  t ∈ texts l -> exists d, lex_docs l dm !! t = Some d /\ d ∈ l /\ text d = t.
Proof.
  induction l as [|d l IH]; intros dm t Hin; simpl in *.
  - by apply elem_of_nil in Hin.
  - destruct (decide (t ∈ texts l)) as [Hl|Hl].
    + destruct (IH (<[text d := d]> dm) t Hl) as (d' & ? & ? & ?).
      exists d'. set_solver.
    + apply elem_of_cons in Hin as [->|?]; [| done].
      exists d. split_and!; [| set_solver | done].
      assert (Hkeep : forall l' (dm' : gmap str Doc) t' d',
                 t' ∉ texts l' -> dm' !! t' = Some d' ->
                 lex_docs l' dm' !! t' = Some d').
      { clear. induction l' as [|e l' IH']; intros dm' t' d' Hn Hd; simpl; [done |].
        apply IH'; [simpl in Hn; set_solver |].
        rewrite lookup_insert_ne; [done | simpl in Hn; set_solver]. }
      apply Hkeep; [done | apply lookup_insert_eq].
Qed.

(** The semantic loop never replaces a record. *)
Lemma sem_docs_keep l : forall (dm : gmap str Doc) t d,
  dm !! t = Some d -> sem_docs l dm !! t = Some d.
Proof.
  induction l as [|e l IH]; intros dm t d Hd; simpl; [done |].
  apply IH. destruct (dm !! text e) eqn:He; [done |].
  rewrite lookup_insert_ne; [done | congruence].
Qed.

(** A text that only the semantic list holds keeps a record of that list. *)
Lemma sem_docs_lookup l : forall (dm : gmap str Doc) t,
  dm !! t = None -> t ∈ texts l ->
  exists d, sem_docs l dm !! t = Some d /\ d ∈ l /\ text d = t.
Proof.
  induction l as [|e l IH]; intros dm t Hd Hin; simpl in *.
  - by apply elem_of_nil in Hin.
  - destruct (decide (text e = t)) as [Heq|Hne].
    + exists e. rewrite Heq, Hd. split_and!; [| set_solver | done].
      apply sem_docs_keep. rewrite <- Heq. apply lookup_insert_eq.
    + apply elem_of_cons in Hin as [?|Hin]; [congruence |].
      destruct (IH (match dm !! text e with Some _ => dm | None => <[text e := e]> dm end) t)
        as (d' & ? & ? & ?); [| done | exists d'; set_solver].
      destruct (dm !! text e); [done |]. by rewrite lookup_insert_ne.
Qed.

(** ** What [reciprocal_rank_fusion] returns *)

Lemma fused_scores_NoDup k b s : NoDup (keys (fused_scores k b s)).
Proof. unfold fused_scores. do 2 apply add_scores_NoDup. constructor. Qed.

Lemma fused_scores_key k b s t :
  t ∈ keys (fused_scores k b s) <-> t ∈ texts b ++ texts s.
Proof.
  rewrite fused_scores_keys.
  destruct (seen_order_spec (texts b ++ texts s) []) as (new & -> & _ & Hmem & _);
    [constructor |].
  simpl. rewrite Hmem. set_solver.
Qed.

Lemma fused_scores_value k b s t sc :
  (t, sc) ∈ fused_scores k b s ->
  (sc == contrib HYBRID_SEARCH_WEIGHTS_bm25 k t (enumerate 1 b)
         + contrib HYBRID_SEARCH_WEIGHTS_semantic k t (enumerate 1 s))%Q.
Proof.
  intros Hin. apply assoc_elem in Hin; [| apply fused_scores_NoDup].
  pose proof (add_scores_value HYBRID_SEARCH_WEIGHTS_semantic k t (enumerate 1 s)
                (add_scores HYBRID_SEARCH_WEIGHTS_bm25 k (enumerate 1 b) [])) as H1.
  pose proof (add_scores_value HYBRID_SEARCH_WEIGHTS_bm25 k t (enumerate 1 b) []) as H2.
  unfold fused_scores in Hin. rewrite Hin in H1. simpl in H1, H2.
  rewrite H1, H2. ring.
Qed.

Lemma weights_pos :
  (0 < HYBRID_SEARCH_WEIGHTS_bm25)%Q /\ (0 < HYBRID_SEARCH_WEIGHTS_semantic)%Q.
Proof. split; reflexivity. Qed.

Lemma fused_scores_pos k b s t sc :
  (0 <= k)%Z -> (t, sc) ∈ fused_scores k b s -> (0 < sc)%Q.
Proof.
  intros Hk Hin. rewrite (fused_scores_value _ _ _ _ _ Hin).
  assert (Ht : t ∈ texts b ++ texts s).
  { apply (fused_scores_key k). unfold keys. apply list_elem_of_fmap.
    by exists (t, sc). }
  destruct weights_pos as [Hb Hs].
  pose proof (contrib_nonneg _ k t b 1 Hb ltac:(lia)).
  pose proof (contrib_nonneg _ k t s 1 Hs ltac:(lia)).
  apply elem_of_app in Ht as [Ht|Ht].
  - pose proof (contrib_pos _ k t b 1 Hb ltac:(lia) Ht). lra.
  - pose proof (contrib_pos _ k t s 1 Hs ltac:(lia) Ht). lra.
Qed.

Lemma fused_docs_dom b s t :
  is_Some (fused_docs b s !! t) <-> t ∈ texts b ++ texts s.
Proof.
  unfold fused_docs. rewrite sem_docs_dom, lex_docs_dom, lookup_empty.
  rewrite elem_of_app. split; [intros [?|[?|[? ?]]]; auto; done | tauto].
Qed.

(** For [k >= 0] the fusion raises nothing: it returns, for the score
    items in sorted order, the stored records with their scores set. *)
Lemma fusion_run b s k :
  (0 <= k)%Z ->
  exists out,
    reciprocal_rank_fusion b s k = Ok out /\
    Forall2 (entry_of (fused_docs b s)) (sorted_desc (fused_scores k b s)) out.
Proof.
  intros Hk. unfold reciprocal_rank_fusion.
  rewrite bm25_loop_run by lia. simpl.
  rewrite semantic_loop_run by lia. simpl.
  apply format_results_ok. intros t Ht.
  apply fused_docs_dom, (fused_scores_key k).
  unfold keys in *. by rewrite sorted_desc_perm in Ht.
Qed.

Lemma StronglySorted_lookup {A} (R : A -> A -> Prop) l i j x y :
  StronglySorted R l -> i < j -> l !! i = Some x -> l !! j = Some y -> R x y.
Proof.
  intros Hs. revert i j. induction Hs as [|a l Hs IH Ha]; intros i j Hij Hi Hj.
  - by rewrite lookup_nil in Hi.
  - destruct j as [|j]; [lia |]. destruct i as [|i]; simpl in *.
    + injection Hi as ->. rewrite Forall_forall in Ha.
      apply Ha. eapply list_elem_of_lookup_2. done.
    + apply (IH i j); [lia | done | done].
Qed.

(** The record under a text: stored by the lexical loop, and by the
    semantic loop for a text that loop met first. *)
Lemma fused_docs_record b s t d :
  fused_docs b s !! t = Some d ->
  text d = t /\ (if decide (t ∈ texts b) then d ∈ b else d ∈ s).
Proof.
  unfold fused_docs. intros Hd. case_decide as Hb.
  - destruct (lex_docs_lookup b ∅ t Hb) as (d' & Hd' & ? & ?).
    rewrite (sem_docs_keep s _ _ _ Hd') in Hd. by simplify_eq.
  - assert (Hn : lex_docs b ∅ !! t = None).
    { apply eq_None_not_Some. rewrite lex_docs_dom, lookup_empty.
      intros [?|[? ?]]; done. }
    assert (Hs : t ∈ texts s).
    { assert (H : is_Some (fused_docs b s !! t)) by (unfold fused_docs; eauto).
      apply fused_docs_dom in H. set_solver. }
    destruct (sem_docs_lookup s _ t Hn Hs) as (d' & Hd' & ? & ?).
    rewrite Hd' in Hd. by simplify_eq.
Qed.

Lemma StronglySorted_keys (R : str -> str -> Prop) (m : list (str * Q)) :
  StronglySorted R (keys m) ->
  StronglySorted (fun x y => R (fst x) (fst y)) m.
Proof.
  induction m as [|x m IH]; simpl; intros Hs; [constructor |].
  apply StronglySorted_inv in Hs as [Hs Hx]. constructor; [by apply IH |].
  rewrite Forall_forall in Hx. apply Forall_forall. intros y Hy. apply Hx.
  unfold keys. apply list_elem_of_fmap. by exists y.
Qed.

Lemma fused_scores_sorted k b s :
  StronglySorted (stable_desc (fun t => first_seen t (texts b ++ texts s)))
    (sorted_desc (fused_scores k b s)).
Proof.
  apply sorted_desc_stable.
  apply (StronglySorted_keys
           (fun a c => first_seen a (texts b ++ texts s)
                       < first_seen c (texts b ++ texts s))).
  rewrite fused_scores_keys.
  destruct (seen_order_spec (texts b ++ texts s) []) as (new & -> & _ & _ & Hs);
    [constructor | done].
Qed.

Lemma entry_of_fused b s item d :
  entry_of (fused_docs b s) item d ->
  text d = fst item /\ hybrid_score d = Some (snd item) /\
  exists d0, d = set_hybrid_score d0 (snd item) /\
             (if decide (fst item ∈ texts b) then d0 ∈ b else d0 ∈ s).
Proof.
  intros (d0 & Hd0 & ->). apply fused_docs_record in Hd0 as [Ht Hin].
  split_and!; [done | done |]. by exists d0.
Qed.

(** The entries of the result, read back from the sorted score items. *)
Lemma fusion_entries b s k out :
  Forall2 (entry_of (fused_docs b s)) (sorted_desc (fused_scores k b s)) out ->
  forall d, d ∈ out ->
  exists sc, (text d, sc) ∈ fused_scores k b s /\ hybrid_score d = Some sc /\
    exists d0, d = set_hybrid_score d0 sc /\
               (if decide (text d ∈ texts b) then d0 ∈ b else d0 ∈ s).
Proof.
  intros Hall d Hd.
  apply list_elem_of_lookup in Hd as [i Hi].
  destruct (Forall2_lookup_r _ _ _ _ _ Hall Hi) as ([t sc] & Hit & Hent).
  apply entry_of_fused in Hent as (Ht & Hsc & d0 & -> & Hin). simpl in *.
  exists sc. subst t. split_and!; [| done | by exists d0].
  rewrite <- (sorted_desc_perm (fused_scores k b s)).
  eapply list_elem_of_lookup_2. done.
Qed.

Lemma fusion_texts b s k out :
  Forall2 (entry_of (fused_docs b s)) (sorted_desc (fused_scores k b s)) out ->
  texts out = keys (sorted_desc (fused_scores k b s)).
Proof.
  induction 1 as [|x d l out Hent Hall IH]; simpl; [done |].
  apply entry_of_fused in Hent as (-> & _). by f_equal.
Qed.

(** ** The record under a text *)

Lemma last_with_text_spec t l d :
  last_with_text t l = Some d -> d ∈ l /\ text d = t.
Proof.
  induction l as [|e l IH]; simpl; [done |].
  destruct (last_with_text t l) as [d'|].
  - intros [= ->]. destruct IH as [? ?]; [done |]. set_solver.
  - case_decide; [| done]. intros [= ->]. set_solver.
Qed.

Lemma last_with_text_None t l : last_with_text t l = None <-> t ∉ texts l.
Proof.
  induction l as [|e l IH]; simpl; [set_solver |].
  destruct (last_with_text t l) as [d'|] eqn:Hl.
  - apply last_with_text_spec in Hl as [Hin <-].
    split; [done |]. intros Hn. exfalso. apply Hn. right.
    apply list_elem_of_fmap. by exists d'.
  - destruct IH as [IH _]. specialize (IH eq_refl).
    case_decide; [split; [done | set_solver] | split; [set_solver | done]].
Qed.

Lemma first_with_text_spec t l d :
  first_with_text t l = Some d -> d ∈ l /\ text d = t.
Proof.
  induction l as [|e l IH]; simpl; [done |].
  case_decide as He.
  - intros [= ->]. set_solver.
  - intros Hf. destruct (IH Hf). set_solver.
Qed.

(** The lexical loop leaves, under each text of its list, the last record
    with that text. *)
Lemma lex_docs_last l : forall (dm : gmap str Doc) t,
  lex_docs l dm !! t
  = match last_with_text t l with
    | Some d => Some d
    | None => dm !! t
    end.
Proof.
  induction l as [|e l IH]; intros dm t; simpl; [done |].
  rewrite IH. destruct (last_with_text t l); [done |].
  case_decide as He.
  - subst t. apply lookup_insert_eq.
  - by apply lookup_insert_ne.
Qed.

(** The semantic loop leaves what is stored, and stores the first record
    of its list under a text that has none. *)
Lemma sem_docs_first_record l : forall (dm : gmap str Doc) t,
  sem_docs l dm !! t
  = match dm !! t with
    | Some d => Some d
    | None => first_with_text t l
    end.
Proof.
  induction l as [|e l IH]; intros dm t; simpl.
  - by destruct (dm !! t).
  - rewrite IH. destruct (dm !! text e) eqn:He.
    + destruct (dm !! t) eqn:Ht; [done |].
      case_decide; [congruence | done].
    + case_decide as Het.
      * subst t. by rewrite lookup_insert_eq, He.
      * by rewrite lookup_insert_ne.
Qed.

Lemma fused_docs_kept b s t :
  fused_docs b s !! t = kept_record t b s.
Proof.
  unfold fused_docs, kept_record.
  rewrite sem_docs_first_record, lex_docs_last, lookup_empty.
  by destruct (last_with_text t b).
Qed.

(** ** Claims about the fusion *)

(** For any two lists, the fused score of an entry is the sum of the
    lexical term of every lexical position of its text and of the semantic
    term of every semantic position of it. *)
Lemma fused_score_sum (bm25_results semantic_results : list Doc) :
  exists out,
    reciprocal_rank_fusion bm25_results semantic_results RRF_K = Ok out /\
    forall d, d ∈ out ->
      exists sc, hybrid_score d = Some sc /\
        (sc == contrib HYBRID_SEARCH_WEIGHTS_bm25 RRF_K (text d)
                 (enumerate 1 bm25_results)
               + contrib HYBRID_SEARCH_WEIGHTS_semantic RRF_K (text d)
                   (enumerate 1 semantic_results))%Q.
Proof.
  destruct (fusion_run bm25_results semantic_results RRF_K) as (out & Hrun & Hall);
    [unfold RRF_K; lia |].
  exists out. split; [done |]. intros d Hd.
  destruct (fusion_entries _ _ _ _ Hall d Hd) as (sc & Hin & Hsc & _).
  exists sc. split; [done |]. by apply fused_scores_value.
Qed.

(** C1 (as amended). When neither input list holds the same chunk text
    twice, the fusion with the default constant and weights returns an
    entry for every document of either list, and the fused score of each
    entry is [w_lex * 1/(K + rank_lex) + w_sem * 1/(K + rank_sem)] with
    [K = 60], [w_lex = 0.4], [w_sem = 0.6], the ranks being the 1-based
    positions in the two lists and an absent document adding 0. *)
Theorem fused_score_formula (bm25_results semantic_results : list Doc) :
  NoDup (texts bm25_results) ->
  NoDup (texts semantic_results) ->
  exists out,
    reciprocal_rank_fusion bm25_results semantic_results 60 = Ok out /\
    (forall t, t ∈ texts bm25_results ++ texts semantic_results ->
               exists d, d ∈ out /\ text d = t) /\
    (forall d, d ∈ out ->
       exists sc, hybrid_score d = Some sc /\
         (sc == rrf_term (4 # 10) 60 (rank_of (text d) bm25_results)
                + rrf_term (6 # 10) 60 (rank_of (text d) semantic_results))%Q).
Proof.
  intros Hb Hs.
  destruct (fusion_run bm25_results semantic_results 60) as (out & Hrun & Hall);
    [lia |].
  exists out. split_and!; [done | |].
  - intros t Ht. apply (fused_scores_key 60) in Ht.
    assert (Hout : t ∈ texts out).
    { rewrite (fusion_texts _ _ _ _ Hall). unfold keys in *.
      by rewrite sorted_desc_perm. }
    apply list_elem_of_fmap in Hout as (d & -> & Hd). by exists d.
  - intros d Hd.
    destruct (fusion_entries _ _ _ _ Hall d Hd) as (sc & Hin & Hsc & _).
    exists sc. split; [done |].
    rewrite (fused_scores_value _ _ _ _ _ Hin).
    unfold rank_of. rewrite !contrib_rank by done. reflexivity.
Qed.

(** C4. The result of the fusion is sorted by fused score, non-increasing,
    and of two entries with equal fused scores the one whose text is seen
    first, walking the lexical list and then the semantic list, comes
    first. *)
Theorem fusion_sorted_stable (bm25_results semantic_results : list Doc) :
  exists out,
    reciprocal_rank_fusion bm25_results semantic_results RRF_K = Ok out /\
    forall i j d1 d2,
      i < j -> out !! i = Some d1 -> out !! j = Some d2 ->
      (hscore d2 <= hscore d1)%Q /\
      ((hscore d1 == hscore d2)%Q ->
       first_seen (text d1) (texts bm25_results ++ texts semantic_results)
       < first_seen (text d2) (texts bm25_results ++ texts semantic_results)).
Proof.
  destruct (fusion_run bm25_results semantic_results RRF_K) as (out & Hrun & Hall);
    [unfold RRF_K; lia |].
  exists out. split; [done |]. intros i j d1 d2 Hij H1 H2.
  destruct (Forall2_lookup_r _ _ _ _ _ Hall H1) as (x1 & Hx1 & He1).
  destruct (Forall2_lookup_r _ _ _ _ _ Hall H2) as (x2 & Hx2 & He2).
  pose proof (StronglySorted_lookup _ _ _ _ _ _
                (fused_scores_sorted RRF_K bm25_results semantic_results)
                Hij Hx1 Hx2) as Hord.
  apply entry_of_fused in He1 as (Ht1 & Hs1 & _).
  apply entry_of_fused in He2 as (Ht2 & Hs2 & _).
  unfold hscore. rewrite Hs1, Hs2, Ht1, Ht2. simpl.
  destruct Hord as [Hlt|[Heq Hpos]].
  - split; [lra | intros; lra].
  - split; [lra | done].
Qed.

(** C10. The result of the fusion holds each chunk text at most once, and
    holds every text of either list; every entry carries a fused score
    strictly greater than zero; an entry is the record that the loops
    keep under its text, whole, with the fused score added: the last
    record of the lexical list with that text whenever the lexical list
    has one, and the first such record of the semantic list otherwise. So
    a document of both lists is returned, once, and its entry is the
    record of the lexical list, with every key of that record. *)
Theorem fusion_entries_distinct_positive
    (bm25_results semantic_results : list Doc) :
  exists out,
    reciprocal_rank_fusion bm25_results semantic_results RRF_K = Ok out /\
    NoDup (texts out) /\
    (forall t, t ∈ texts out
               <-> t ∈ texts bm25_results ++ texts semantic_results) /\
    (forall d, d ∈ out ->
       exists sc d0,
         hybrid_score d = Some sc /\ (0 < sc)%Q /\
         d = set_hybrid_score d0 sc /\
         kept_record (text d) bm25_results semantic_results = Some d0 /\
         (if decide (text d ∈ texts bm25_results)
          then d0 ∈ bm25_results else d0 ∈ semantic_results)) /\
    (forall t, t ∈ texts bm25_results -> t ∈ texts semantic_results ->
       exists d sc d0,
         d ∈ out /\ text d = t /\
         last_with_text t bm25_results = Some d0 /\ d0 ∈ bm25_results /\
         d = set_hybrid_score d0 sc /\
         metadata d = metadata d0 /\ bm25_score d = bm25_score d0 /\
         distance d = distance d0 /\ score d = score d0).
Proof.
  destruct (fusion_run bm25_results semantic_results RRF_K) as (out & Hrun & Hall);
    [unfold RRF_K; lia |].
  assert (Htexts : forall t, t ∈ texts out
                             <-> t ∈ texts bm25_results ++ texts semantic_results).
  { intros t. rewrite (fusion_texts _ _ _ _ Hall). unfold keys.
    rewrite sorted_desc_perm. apply fused_scores_key. }
  assert (Hentry : forall d, d ∈ out ->
            exists sc d0,
              hybrid_score d = Some sc /\ (0 < sc)%Q /\
              d = set_hybrid_score d0 sc /\
              kept_record (text d) bm25_results semantic_results = Some d0 /\
              (if decide (text d ∈ texts bm25_results)
               then d0 ∈ bm25_results else d0 ∈ semantic_results)).
  { intros d Hd.
    apply list_elem_of_lookup in Hd as [i Hi].
    destruct (Forall2_lookup_r _ _ _ _ _ Hall Hi) as ([t sc] & Hit & Hent).
    destruct Hent as (d0 & Hd0 & ->). simpl in Hd0.
    pose proof (fused_docs_record _ _ _ _ Hd0) as [Ht Hfrom].
    exists sc, d0. simpl. rewrite Ht. split_and!; [done | | done | | done].
    - eapply (fused_scores_pos RRF_K); [unfold RRF_K; lia |].
      rewrite <- (sorted_desc_perm (fused_scores RRF_K bm25_results semantic_results)).
      eapply list_elem_of_lookup_2. exact Hit.
    - by rewrite <- fused_docs_kept. }
  exists out. split_and!; [done | | done | done |].
  - rewrite (fusion_texts _ _ _ _ Hall). unfold keys.
    rewrite sorted_desc_perm. apply fused_scores_NoDup.
  - intros t Hb Hs.
    assert (Hin : t ∈ texts out) by (apply Htexts; set_solver).
    apply list_elem_of_fmap in Hin as (d & -> & Hd).
    destruct (Hentry d Hd) as (sc & d0 & Hsc & Hpos & Heq & Hkept & Hfrom).
    rewrite decide_True in Hfrom by done.
    unfold kept_record in Hkept.
    destruct (last_with_text (text d) bm25_results) as [d1|] eqn:Hlast.
    + injection Hkept as ->. exists d, sc, d0.
      split_and!; try done; rewrite Heq; reflexivity.
    + apply last_with_text_None in Hlast. done.
Qed.

(** A lexical list that holds the same text twice: the entry is the
    record that comes last in the lexical list (chunk 8), not the first
    one (chunk 3) and not the record of the semantic list (chunk 5). *)
Example fusion_keeps_last_lexical_record :
  match reciprocal_rank_fusion [exercise_chunk 3; exercise_chunk 8]
          [exercise_chunk 5] RRF_K with
  | Ok out => map (fun d => chunk_id (metadata d)) out
  | Raise _ => []
  end
  = [8%Z].
Proof. vm_compute. reflexivity. Qed.

(** C1 as stated fails: a lexical list that holds the same chunk text
    twice (two chunks with equal text) gives that text the sum of both
    terms, which is neither [0.4/(60+1)], the term of its first position,
    nor [0.4/(60+2)], the term of its second one. *)
Lemma fused_score_duplicate_text :
  exists d sc,
    reciprocal_rank_fusion [exercise_chunk 3; exercise_chunk 8] [] 60
    = Ok [d] /\
    text d = text (exercise_chunk 3) /\
    hybrid_score d = Some sc /\
    rank_of (text d) [exercise_chunk 3; exercise_chunk 8] = Some 1%Z /\
    rank_of (text d) [] = None /\
    (sc == (4 # 10) * reciprocal 60 1 + (4 # 10) * reciprocal 60 2)%Q /\
    ~ (sc == rrf_term (4 # 10) 60 (Some 1%Z) + rrf_term (6 # 10) 60 None)%Q /\
    ~ (sc == rrf_term (4 # 10) 60 (Some 2%Z) + rrf_term (6 # 10) 60 None)%Q.
Proof.
  eexists _, _. split; [vm_compute; reflexivity |].
  split_and!; try (vm_compute; reflexivity);
    intros H; vm_compute in H; discriminate H.
Qed.

(** C1 (as amended) on two lists of two chunks each, which share one. *)
Lemma fused_score_formula_witness :
  NoDup (texts [alpha_chunk; gamma_chunk]) /\
  NoDup (texts [gamma_chunk; decay_chunk]) /\
  exists out,
    reciprocal_rank_fusion [alpha_chunk; gamma_chunk]
      [gamma_chunk; decay_chunk] 60
    = Ok out /\
    (forall t, t ∈ texts [alpha_chunk; gamma_chunk]
                   ++ texts [gamma_chunk; decay_chunk] ->
               exists d, d ∈ out /\ text d = t) /\
    (forall d, d ∈ out ->
       exists sc, hybrid_score d = Some sc /\
         (sc == rrf_term (4 # 10) 60
                  (rank_of (text d) [alpha_chunk; gamma_chunk])
                + rrf_term (6 # 10) 60
                    (rank_of (text d) [gamma_chunk; decay_chunk]))%Q).
Proof.
  assert (H1 : NoDup (texts [alpha_chunk; gamma_chunk]))
    by (apply (bool_decide_unpack _); vm_compute; reflexivity).
  assert (H2 : NoDup (texts [gamma_chunk; decay_chunk]))
    by (apply (bool_decide_unpack _); vm_compute; reflexivity).
  split; [exact H1 |]. split; [exact H2 |].
  exact (fused_score_formula _ _ H1 H2).
Defined.

(** ** The lexical search *)

Section RetrieverProperties.
Context {E : External} {HE : ExternalSpec E}.

Lemma built_ok self : built self -> retriever_ok self.
Proof.
  induction 1 as [|self subject documents Hb IH].
  - intros subject index H. simpl in H. by rewrite lookup_empty in H.
  - destruct documents as [|d documents]; [done |].
    intros subject' index. cbn [build_bm25_index snd bm25_indices corpus_docs].
    destruct (decide (subject = subject')) as [->|Hne].
    + rewrite !lookup_insert_eq. intros [= <-]. eexists. split; [done |].
      intros query. rewrite get_scores_length. simpl. by rewrite length_map.
    + rewrite !lookup_insert_ne by done. apply IH.
Qed.

(** The loop over the top indices keeps, in order, the documents with a
    positive score. *)
Lemma bm25_results_of_ok self subject docs scores idxs :
  corpus_docs self !! subject = Some docs ->
  length scores = length docs ->
  Forall (fun i => i < length scores) idxs ->
  exists out,
    bm25_results_of self subject scores idxs = Ok out /\
    length out <= length idxs /\
    Forall (fun d => exists sc, bm25_score d = Some sc /\ (0 < sc)%Q) out /\
    Forall2 (fun d i => bm25_score d = Some (nth i scores 0%Q))
      out
      (List.filter
         (fun i => if Qlt_le_dec 0 (nth i scores 0%Q) then true else false)
         idxs).
Proof.
  intros Hdocs Hlen. induction idxs as [|i idxs IH]; intros Hall; simpl.
  - exists []. split_and!; [done | done | constructor | constructor].
  - apply Forall_cons in Hall as [Hi Hall]. cbv beta in Hi.
    destruct (IH Hall) as (out & Hout & Hle & Hpos & Hsc).
    destruct (lookup_lt_is_Some_2 scores i Hi) as [s Hs]. rewrite Hs.
    rewrite (nth_lookup_Some _ _ 0%Q _ Hs).
    destruct (Qlt_le_dec 0 s) as [Hlt|Hge].
    + rewrite Hdocs.
      destruct (lookup_lt_is_Some_2 docs i) as [doc Hdoc]; [lia |].
      rewrite Hdoc, Hout. simpl. eexists. split_and!; [done | simpl; lia | |].
      * constructor; [| done]. by exists s.
      * constructor; [| done]. simpl. by rewrite (nth_lookup_Some _ _ 0%Q _ Hs).
    + exists out. split_and!; [done | lia | done | done].
Qed.

Lemma argsort_in_range scores :
  Forall (fun i => i < length scores) (argsort scores).
Proof.
  apply Forall_forall. intros i Hi.
  rewrite (argsort_perm scores) in Hi.
  apply elem_of_seq in Hi. lia.
Qed.

Lemma StronglySorted_rev {A} (R : A -> A -> Prop) l :
  StronglySorted R l -> StronglySorted (flip R) (rev l).
Proof.
  induction 1 as [|a l Hs IH Ha]; simpl; [constructor |].
  apply StronglySorted_app_2; [| done | repeat constructor].
  intros x y Hx Hy. apply list_elem_of_singleton in Hy as ->.
  rewrite Forall_forall in Ha. apply Ha.
  by apply list_elem_of_In, in_rev, list_elem_of_In in Hx.
Qed.

Lemma StronglySorted_take {A} (R : A -> A -> Prop) n l :
  StronglySorted R l -> StronglySorted R (take n l).
Proof.
  intros Hs. revert n. induction Hs as [|a l Hs IH Ha]; intros [|n]; simpl;
    try constructor; [apply IH |].
  eapply Forall_take. done.
Qed.

Lemma StronglySorted_filter {A} (R : A -> A -> Prop) f l :
  StronglySorted R l -> StronglySorted R (List.filter f l).
Proof.
  induction 1 as [|a l Hs IH Ha]; simpl; [constructor |].
  destruct (f a); [| done]. constructor; [done |].
  rewrite Forall_forall in *. intros x Hx. apply Ha.
  apply list_elem_of_In, filter_In in Hx as [Hx _]. by apply list_elem_of_In.
Qed.

(** The top indices stand by decreasing score. *)
Lemma top_indices_sorted scores (top_k : Z) :
  StronglySorted (fun i j => (nth j scores 0 <= nth i scores 0)%Q)
    (py_slice_to (rev (argsort scores)) top_k).
Proof.
  unfold py_slice_to.
  destruct (0 <=? top_k)%Z; apply StronglySorted_take;
    apply (StronglySorted_rev _ _ (argsort_sorted scores)).
Qed.

Lemma top_indices_in_range scores (top_k : Z) :
  Forall (fun i => i < length scores)
    (py_slice_to (rev (argsort scores)) top_k).
Proof.
  unfold py_slice_to.
  destruct (0 <=? top_k)%Z; apply Forall_take, Forall_rev, argsort_in_range.
Qed.

Lemma sorted_scores_of scores out idxs :
  Forall2 (fun d i => bm25_score d = Some (nth i scores 0%Q)) out idxs ->
  StronglySorted (fun i j => (nth j scores 0 <= nth i scores 0)%Q) idxs ->
  StronglySorted (fun d1 d2 => (lscore d2 <= lscore d1)%Q) out.
Proof.
  induction 1 as [|d i out idxs Hd Hall IH]; intros Hs; [constructor |].
  apply StronglySorted_inv in Hs as [Hs Hi].
  constructor; [by apply IH |].
  apply Forall_forall. intros d2 Hd2.
  apply list_elem_of_lookup in Hd2 as [n Hn].
  destruct (Forall2_lookup_l _ _ _ _ _ Hall Hn) as (j & Hj & Hd2).
  rewrite Forall_forall in Hi.
  unfold lscore. rewrite Hd, Hd2. simpl. apply Hi.
  eapply list_elem_of_lookup_2. done.
Qed.

(** C2 (as amended). On a retriever built by [build_bm25_index], for every
    query, subject and non-negative [top_k], [bm25_search] raises nothing and
    returns at most [top_k] candidates, each with a BM25 score strictly
    greater than zero, ordered by BM25 score descending. *)
Theorem bm25_search_top_k (self : HybridRetriever) (query subject : str)
    (top_k : Z) :
  built self ->
  (0 <= top_k)%Z ->
  exists out,
    snd (bm25_search self query subject top_k) = Ok out /\
    (Z.of_nat (length out) <= top_k)%Z /\
    Forall (fun d => exists sc, bm25_score d = Some sc /\ (0 < sc)%Q) out /\
    StronglySorted (fun d1 d2 => (lscore d2 <= lscore d1)%Q) out.
Proof.
  intros Hb Hk. unfold bm25_search.
  destruct (bm25_indices self !! subject) as [index|] eqn:Hidx; simpl.
  - destruct (built_ok self Hb subject index Hidx) as (docs & Hdocs & Hlen).
    set (scores := get_scores index (tokenize query)).
    destruct (bm25_results_of_ok self subject docs scores
                (py_slice_to (rev (argsort scores)) top_k) Hdocs (Hlen _)
                (top_indices_in_range scores top_k))
      as (out & Hout & Hle & Hpos & Hsc).
    exists out. split_and!; [done | | done |].
    + assert (length (py_slice_to (rev (argsort scores)) top_k)
              <= Z.to_nat top_k); [| lia].
      unfold py_slice_to. destruct (Z.leb_spec 0 top_k); [| lia].
      rewrite length_take. lia.
    + eapply sorted_scores_of; [exact Hsc |].
      apply StronglySorted_filter, top_indices_sorted.
  - exists []. split_and!; [done | simpl; lia | constructor | constructor].
Qed.

End RetrieverProperties.

(** ** Fusion of an empty lexical list *)

Lemma dd_add_fresh t v m : t ∉ keys m -> dd_add t v m = m ++ [(t, (0 + v)%Q)].
Proof.
  induction m as [|[k' x] m IH]; simpl; intros Hn; [done |].
  rewrite decide_False by set_solver. f_equal. apply IH. set_solver.
Qed.

Lemma add_scores_fresh w k items : forall m,
  NoDup (texts (map snd items)) ->
  (forall t, t ∈ texts (map snd items) -> t ∉ keys m) ->
  add_scores w k items m = m ++ map (item_of w k) items.
Proof.
  induction items as [|[rank d] items IH]; intros m Hnd Hfresh; simpl in *.
  - by rewrite app_nil_r.
  - apply NoDup_cons in Hnd as [Hd Hnd].
    rewrite IH; [| done |].
    + rewrite dd_add_fresh by (apply Hfresh; set_solver).
      by rewrite <- app_assoc.
    + intros t Ht. rewrite dd_add_keys, decide_False by (apply Hfresh; set_solver).
      intros Hin. apply elem_of_app in Hin as [Hin|Hin].
      * revert Hin. apply Hfresh. set_solver.
      * apply list_elem_of_singleton in Hin. congruence.
Qed.

Lemma sorted_desc_id l :
  StronglySorted (fun x y => (snd y <= snd x)%Q) l -> sorted_desc l = l.
Proof.
  induction 1 as [|x l Hs IH Hx]; simpl; [done |].
  rewrite IH. destruct l as [|y l]; simpl; [done |].
  apply Forall_cons in Hx as [Hxy _].
  destruct (Qlt_le_dec (snd x) (snd y)); [lra | done].
Qed.

Lemma enumerate_ge {A} (l : list A) : forall start r x,
  (r, x) ∈ enumerate start l -> (start <= r)%Z.
Proof.
  induction l as [|a l IH]; intros start r x Hin; simpl in Hin.
  - by apply elem_of_nil in Hin.
  - apply elem_of_cons in Hin as [[= -> ->]|Hin]; [lia |].
    apply IH in Hin. lia.
Qed.

Lemma reciprocal_antitone k r1 r2 :
  (0 < k + r1)%Z -> (r1 <= r2)%Z -> (reciprocal k r2 <= reciprocal k r1)%Q.
Proof.
  intros H1 H2.
  pose proof (reciprocal_pos k r1 H1) as Hp1.
  pose proof (reciprocal_pos k r2 ltac:(lia)) as Hp2.
  assert (Ha : (0 < inject_Z (k + r1))%Q)
    by (change 0%Q with (inject_Z 0); rewrite <- Zlt_Qlt; lia).
  assert (Hb : (inject_Z (k + r1) <= inject_Z (k + r2))%Q)
    by (rewrite <- Zle_Qle; lia).
  assert (E1 : (inject_Z (k + r1) * reciprocal k r1 == 1)%Q).
  { unfold reciprocal. field. intros H0. rewrite H0 in Ha. lra. }
  assert (E2 : (inject_Z (k + r2) * reciprocal k r2 == 1)%Q).
  { unfold reciprocal. field. intros H0. rewrite H0 in Hb. lra. }
  revert Hp1 Hp2 Ha Hb E1 E2.
  generalize (reciprocal k r1) (reciprocal k r2)
    (inject_Z (k + r1)) (inject_Z (k + r2)).
  intros x y a b Hx Hy Ha Hb E1 E2.
  destruct (Qlt_le_dec x y) as [Hlt|Hle]; [| done].
  assert (a * x < b * y)%Q by nra. lra.
Qed.

Lemma items_sorted w k (l : list Doc) : forall start,
  (0 < w)%Q -> (0 < k + start)%Z ->
  StronglySorted (fun x y => (snd y <= snd x)%Q)
    (map (item_of w k) (enumerate start l)).
Proof.
  induction l as [|d l IH]; intros start Hw Hk; simpl; constructor.
  - apply IH; [done | lia].
  - apply Forall_forall. intros y Hy.
    apply list_elem_of_fmap in Hy as ([r x] & -> & Hin). simpl.
    apply enumerate_ge in Hin.
    pose proof (reciprocal_antitone k start r Hk ltac:(lia)).
    nra.
Qed.

Lemma sem_docs_first l : forall (dm : gmap str Doc),
  NoDup (texts l) ->
  (forall d, d ∈ l -> dm !! text d = None) ->
  forall d, d ∈ l -> sem_docs l dm !! text d = Some d.
Proof.
  induction l as [|e l IH]; intros dm Hnd Hfresh d Hd; simpl in *.
  - by apply elem_of_nil in Hd.
  - apply NoDup_cons in Hnd as [He Hnd].
    rewrite (Hfresh e) by set_solver.
    apply elem_of_cons in Hd as [->|Hd].
    + apply sem_docs_keep, lookup_insert_eq.
    + apply IH; [done | | done].
      intros d' Hd'. rewrite lookup_insert_ne; [apply Hfresh; set_solver |].
      intros Heq. apply He. rewrite Heq. unfold texts.
      apply list_elem_of_fmap. by exists d'.
Qed.

Lemma format_results_items dm w k (items : list (Z * Doc)) :
  (forall it, it ∈ items -> dm !! text (snd it) = Some (snd it)) ->
  format_results dm (map (item_of w k) items)
  = Ok (map (fun it => set_hybrid_score (snd it)
                         (0 + w * reciprocal k (fst it))%Q) items).
Proof.
  induction items as [|[r d] items IH]; intros Hdm; simpl; [done |].
  pose proof (Hdm (r, d) ltac:(set_solver)) as Hd. simpl in Hd. rewrite Hd.
  rewrite IH by (intros; apply Hdm; set_solver). done.
Qed.

Lemma enumerate_elem {A} (l : list A) : forall start r x,
  (r, x) ∈ enumerate start l -> x ∈ l.
Proof.
  induction l as [|a l IH]; intros start r x Hin; simpl in Hin.
  - by apply elem_of_nil in Hin.
  - apply elem_of_cons in Hin as [[= -> ->]|Hin]; [set_solver |].
    apply IH in Hin. set_solver.
Qed.

(** With no lexical candidate and no text met twice, the fusion returns
    the semantic results in their own order, each with the semantic term
    of its rank as fused score. *)
Lemma fusion_semantic_only s k :
  (0 <= k)%Z -> NoDup (texts s) ->
  reciprocal_rank_fusion [] s k
  = Ok (map (fun it => set_hybrid_score (snd it)
                         (0 + HYBRID_SEARCH_WEIGHTS_semantic * reciprocal k (fst it))%Q)
          (enumerate 1 s)).
Proof.
  intros Hk Hnd. unfold reciprocal_rank_fusion. simpl.
  rewrite semantic_loop_run by lia. simpl.
  rewrite add_scores_fresh; [| by rewrite enumerate_snd | intros; apply not_elem_of_nil].
  simpl. rewrite sorted_desc_id by (apply items_sorted; [reflexivity | lia]).
  apply format_results_items. intros [r d] Hin. simpl.
  apply sem_docs_first; [done | intros; apply lookup_empty |].
  by apply enumerate_elem in Hin.
Qed.

(** ** The stand-ins meet the libraries' contract *)

Lemma insert_index_perm scores i l :
  Permutation (insert_index scores i l) (i :: l).
Proof.
  induction l as [|j l IH]; simpl; [done |].
  destruct (Qlt_le_dec _ _); [| done]. rewrite IH. apply perm_swap.
Qed.

Lemma insert_index_sorted scores i l :
  StronglySorted (fun a b => (nth a scores 0 <= nth b scores 0)%Q) l ->
  StronglySorted (fun a b => (nth a scores 0 <= nth b scores 0)%Q)
    (insert_index scores i l).
Proof.
  induction l as [|j l IH]; intros Hs; simpl.
  - repeat constructor.
  - apply StronglySorted_inv in Hs as [Hs Hj].
    destruct (Qlt_le_dec (nth j scores 0%Q) (nth i scores 0%Q)) as [Hlt|Hle].
    + constructor; [by apply IH |].
      rewrite insert_index_perm. constructor; [lra | done].
    + constructor; [by constructor |]. constructor; [done |].
      rewrite Forall_forall in *. intros x Hx. specialize (Hj x Hx).
      cbv beta in Hj. lra.
Qed.

Lemma stub_external_spec sem chunks : ExternalSpec (stub_external sem chunks).
Proof.
  split; simpl.
  - intros corpus query. apply length_map.
  - intros scores. unfold argsort_by_insertion.
    induction (seq 0 (length scores)) as [|i l IH]; simpl; [done |].
    rewrite insert_index_perm. by constructor.
  - intros scores. unfold argsort_by_insertion.
    induction (seq 0 (length scores)) as [|i l IH]; simpl; [constructor |].
    by apply insert_index_sorted.
Qed.

(** C2 as stated fails for a negative [top_k]: [[:top_k]] then drops the
    last [-top_k] indices only, and the one chunk that matches the query is
    returned, which is more than [top_k = -1] candidates. *)
Lemma bm25_search_negative_top_k :
  exists d,
    snd (bm25_search (E := demo_libraries) demo_retriever
           (u "alpha") (u "physics") (-1))
    = Ok [d] /\
    text d = text alpha_chunk /\
    ~ (Z.of_nat (length [d]) <= -1)%Z.
Proof.
  eexists. split_and!; [vm_compute; reflexivity | reflexivity |].
  simpl. lia.
Qed.

(** C2 (as amended) on the retriever over three chunks, for ten
    candidates. *)
Lemma bm25_search_top_k_witness :
  built demo_retriever /\
  (0 <= 10)%Z /\
  exists out,
    snd (bm25_search (E := demo_libraries) demo_retriever
           (u "alpha") (u "physics") 10)
    = Ok out /\
    (Z.of_nat (length out) <= 10)%Z /\
    Forall (fun d => exists sc, bm25_score d = Some sc /\ (0 < sc)%Q) out /\
    StronglySorted (fun d1 d2 => (lscore d2 <= lscore d1)%Q) out.
Proof.
  assert (Hb : built demo_retriever) by apply built_index, built_new.
  assert (Hk : (0 <= 10)%Z) by lia.
  split; [exact Hb |]. split; [exact Hk |].
  exact (bm25_search_top_k (HE := stub_external_spec [] [])
           demo_retriever (u "alpha") (u "physics") 10 Hb Hk).
Defined.

(** ** Search without a lexical index *)

Section SearchProperties.
Context {E : External}.

(** C6 (as amended). For a subject without a lexical index, [bm25_search]
    prints the warning and returns the empty list, nothing is raised, and
    [search] returns the first [top_k] entries of the fusion of the empty
    lexical list with the semantic results. Every fused score is then made
    of semantic terms only, and when no text occurs twice among the
    semantic results the fusion lists them in their own order. *)
Theorem search_without_lexical_index (self : HybridRetriever)
    (query subject : str) (top_k : Z) :
  bm25_indices self !! subject = None ->
  bm25_search self query subject (top_k * 2)
  = ([u "Warning: No BM25 index for " ++ subject], Ok []) /\
  exists fused,
    reciprocal_rank_fusion [] (semantic_search query subject (top_k * 2)) RRF_K
    = Ok fused /\
    search self query subject top_k
    = ([u "Warning: No BM25 index for " ++ subject],
       Ok (py_slice_to fused top_k)) /\
    (forall d, d ∈ fused ->
       exists sc, hybrid_score d = Some sc /\
         (sc == contrib HYBRID_SEARCH_WEIGHTS_semantic RRF_K (text d)
                  (enumerate 1 (semantic_search query subject (top_k * 2))))%Q) /\
    (NoDup (texts (semantic_search query subject (top_k * 2))) ->
     fused = map (fun it => set_hybrid_score (snd it)
                    (0 + HYBRID_SEARCH_WEIGHTS_semantic
                         * reciprocal RRF_K (fst it))%Q)
               (enumerate 1 (semantic_search query subject (top_k * 2)))).
Proof.
  intros Hnone.
  assert (Hlex : bm25_search self query subject (top_k * 2)
                 = ([u "Warning: No BM25 index for " ++ subject], Ok [])).
  { unfold bm25_search. by rewrite Hnone. }
  split; [done |].
  set (sem := semantic_search query subject (top_k * 2)).
  destruct (fusion_run [] sem RRF_K) as (fused & Hrun & Hall);
    [unfold RRF_K; lia |].
  exists fused. split_and!; [done | | |].
  - unfold search. rewrite Hlex. simpl. fold sem. by rewrite Hrun.
  - intros d Hd.
    destruct (fusion_entries _ _ _ _ Hall d Hd) as (sc & Hin & Hsc & _).
    exists sc. split; [done |].
    rewrite (fused_scores_value _ _ _ _ _ Hin). simpl. ring.
  - intros Hnd.
    rewrite fusion_semantic_only in Hrun; [| unfold RRF_K; lia | done].
    by injection Hrun.
Qed.

End SearchProperties.

(** C6 as stated fails in two ways. The result of [search] is cut to
    [top_k] entries: for [top_k = 1] the fusion of the empty lexical list
    with two semantic results has two entries and the result has one. And
    the semantic order is not kept when a text occurs twice among the
    semantic results: the two terms of the repeated text add up and move
    it in front of the chunk that the vector store ranked first. *)
Lemma search_cuts_and_merges :
  (exists d1 d2,
     reciprocal_rank_fusion []
       (semantic_search (External := demo_store) (u "rays") (u "physics") (1 * 2))
       RRF_K
     = Ok [d1; d2] /\
     search (E := demo_store) new_retriever (u "rays") (u "physics") 1
     = ([u "Warning: No BM25 index for physics"], Ok [d1])) /\
  (exists d1 d2,
     texts (semantic_search (External := repeating_store)
              (u "alpha") (u "physics") (5 * 2))
     = [text alpha_chunk; text (exercise_chunk 3); text (exercise_chunk 3)] /\
     search (E := repeating_store) new_retriever (u "alpha") (u "physics") 5
     = ([u "Warning: No BM25 index for physics"], Ok [d1; d2]) /\
     text d1 = text (exercise_chunk 3) /\
     text d2 = text alpha_chunk).
Proof.
  split.
  - eexists _, _. split; vm_compute; reflexivity.
  - eexists _, _. split_and!; vm_compute; reflexivity.
Qed.

(** C6 (as amended) on a new retriever, which has no index at all, and a
    vector store that answers two chunks. *)
Lemma search_without_lexical_index_witness :
  bm25_indices (new_retriever (E := demo_store)) !! u "physics" = None /\
  bm25_search (E := demo_store) new_retriever (u "alpha") (u "physics") (5 * 2)
  = ([u "Warning: No BM25 index for " ++ u "physics"], Ok []) /\
  exists fused,
    reciprocal_rank_fusion []
      (semantic_search (External := demo_store)
         (u "alpha") (u "physics") (5 * 2)) RRF_K
    = Ok fused /\
    search (E := demo_store) new_retriever (u "alpha") (u "physics") 5
    = ([u "Warning: No BM25 index for " ++ u "physics"],
       Ok (py_slice_to fused 5)) /\
    (forall d, d ∈ fused ->
       exists sc, hybrid_score d = Some sc /\
         (sc == contrib HYBRID_SEARCH_WEIGHTS_semantic RRF_K (text d)
                  (enumerate 1
                     (semantic_search (External := demo_store)
                        (u "alpha") (u "physics") (5 * 2))))%Q) /\
    (NoDup (texts (semantic_search (External := demo_store)
                     (u "alpha") (u "physics") (5 * 2))) ->
     fused = map (fun it => set_hybrid_score (snd it)
                    (0 + HYBRID_SEARCH_WEIGHTS_semantic
                         * reciprocal RRF_K (fst it))%Q)
               (enumerate 1
                  (semantic_search (External := demo_store)
                     (u "alpha") (u "physics") (5 * 2)))).
Proof.
  assert (Hnone : bm25_indices (new_retriever (E := demo_store))
                    !! u "physics" = None) by reflexivity.
  split; [exact Hnone |].
  exact (search_without_lexical_index (E := demo_store)
           new_retriever (u "alpha") (u "physics") 5 Hnone).
Defined.

(** ** The chunk records *)

Lemma lstrip_length s : length (lstrip s) <= length s.
Proof.
  induction s as [|c s IH]; simpl; [done |].
  destruct (is_space c); simpl; lia.
Qed.

Lemma strip_length s : length (strip s) <= length s.
Proof.
  unfold strip, rstrip. rewrite length_rev.
  etransitivity; [apply lstrip_length |]. rewrite length_rev.
  apply lstrip_length.
Qed.

(** The records are the kept chunks, each under its position in the
    splitter's output. *)
Lemma chunk_records_spec items pdf_file subject :
  map (fun d => (chunk_id (metadata d), text d))
    (chunk_records items pdf_file subject)
  = List.filter kept items.
Proof.
  induction items as [|[idx c] items IH]; simpl; [done |].
  unfold kept at 1. simpl. destruct (length (strip c) <? 50); simpl; [done |].
  by f_equal.
Qed.

Lemma enumerate_sorted {A} (l : list A) : forall start,
  StronglySorted (fun x y => (fst x < fst y)%Z) (enumerate start l).
Proof.
  induction l as [|a l IH]; intros start; simpl; constructor; [apply IH |].
  apply Forall_forall. intros [r x] Hin. apply enumerate_ge in Hin. simpl. lia.
Qed.

Lemma enumerate_lookup {A} (l : list A) : forall start r x,
  (r, x) ∈ enumerate start l ->
  exists i : nat, r = (start + Z.of_nat i)%Z /\ l !! i = Some x.
Proof.
  induction l as [|a l IH]; intros start r x Hin; simpl in Hin.
  - by apply elem_of_nil in Hin.
  - apply elem_of_cons in Hin as [[= -> ->]|Hin].
    + exists 0. split; [lia | done].
    + apply IH in Hin as (i & -> & Hi). exists (S i). split; [lia | done].
Qed.

Lemma enumerate_fst {A} (l : list A) : forall start,
  map fst (enumerate start l)
  = map (fun i => (start + Z.of_nat i)%Z) (seq 0 (length l)).
Proof.
  induction l as [|a l IH]; intros start; simpl; [done |].
  f_equal; [f_equal; lia |].
  rewrite IH, <- seq_shift, map_map. apply map_ext. intros i. lia.
Qed.

Lemma filter_all {A} (f : A -> bool) l :
  Forall (fun x => f x = true) l -> List.filter f l = l.
Proof.
  induction 1 as [|x l Hx Hl IH]; simpl; [done |]. by rewrite Hx, IH.
Qed.

Section PipelineProperties.
Context {E : External}.

(** C3 (as amended). The [chunk_id] of a record is the zero-based position
    of its chunk in the splitter's output: the records are the chunks whose
    stripped text has at least 50 characters, in chunking order, so their
    ids are strictly increasing; they are 0, 1, 2, ... without a gap when
    no chunk is discarded. *)
Theorem chunk_ids_are_positions (text0 : str) (pdf_file : Path)
    (subject0 : str) :
  map (fun d => (chunk_id (metadata d), text d))
    (process_element_chunks text0 pdf_file subject0)
  = List.filter kept (enumerate 0 (split_text text0)) /\
  StronglySorted Z.lt
    (map (fun d => chunk_id (metadata d))
       (process_element_chunks text0 pdf_file subject0)) /\
  (forall d, d ∈ process_element_chunks text0 pdf_file subject0 ->
     exists i : nat, chunk_id (metadata d) = Z.of_nat i /\
                     split_text text0 !! i = Some (text d)) /\
  (Forall (fun c => 50 <= length (strip c)) (split_text text0) ->
   map (fun d => chunk_id (metadata d))
     (process_element_chunks text0 pdf_file subject0)
   = map Z.of_nat (seq 0 (length (split_text text0)))).
Proof.
  unfold process_element_chunks.
  pose proof (chunk_records_spec (enumerate 0 (split_text text0)) pdf_file subject0)
    as Hspec.
  set (out := chunk_records _ _ _) in *.
  assert (Hids : map (fun d => chunk_id (metadata d)) out
                 = map fst (List.filter kept (enumerate 0 (split_text text0)))).
  { rewrite <- Hspec, map_map. done. }
  split_and!; [done | | |].
  - rewrite Hids.
    apply (StronglySorted_fmap fst (fun x y => (fst x < fst y)%Z)); [done |].
    apply StronglySorted_filter, enumerate_sorted.
  - intros d Hd.
    assert (Hin : (chunk_id (metadata d), text d)
                  ∈ List.filter kept (enumerate 0 (split_text text0))).
    { rewrite <- Hspec. apply list_elem_of_fmap. by exists d. }
    apply list_elem_of_In, filter_In in Hin as [Hin _].
    apply list_elem_of_In, enumerate_lookup in Hin as (i & Hi & Hl).
    exists i. split; [lia | done].
  - intros Hall. rewrite Hids, filter_all.
    + rewrite enumerate_fst. apply map_ext. intros i. lia.
    + apply Forall_forall. intros [r c] Hin.
      apply enumerate_elem in Hin. rewrite Forall_forall in Hall.
      specialize (Hall c Hin). unfold kept. simpl.
      destruct (Nat.ltb_spec (length (strip c)) 50); [lia | done].
Qed.

Lemma chunk_records_min_length items (pdf_file : Path) (subject0 : str) :
  Forall (fun d => 50 <= length (strip (text d)) /\ 50 <= length (text d))
    (chunk_records items pdf_file subject0).
Proof.
  induction items as [|[idx c] items IH]; simpl; [constructor |].
  destruct (Nat.ltb_spec (length (strip c)) 50) as [Hlt|Hge]; [done |].
  constructor; [| done]. simpl.
  pose proof (strip_length c). lia.
Qed.

(** C5. Every record that [process_element_chunks] returns has a text of
    at least 50 characters, also after stripping: a chunk whose stripped
    text is shorter is skipped and is in no record. *)
Theorem chunk_text_min_length (text0 : str) (pdf_file : Path)
    (subject0 : str) :
  Forall (fun d => 50 <= length (strip (text d)) /\ 50 <= length (text d))
    (process_element_chunks text0 pdf_file subject0).
Proof.
  unfold process_element_chunks. apply chunk_records_min_length.
Qed.

(** So a lexical index built over the records of any number of documents
    holds no text of fewer than 50 characters. *)
Lemma indexed_chunks_min_length (subject0 : str)
    (sources : list (str * Path)) :
  Forall (fun d => 50 <= length (text d))
    (default []
       (corpus_docs
          (snd (build_bm25_index new_retriever subject0
                  (flat_map
                     (fun src => process_element_chunks (fst src) (snd src) subject0)
                     sources)))
        !! subject0)).
Proof.
  set (chunks := flat_map _ sources).
  assert (Hall : Forall (fun d => 50 <= length (text d)) chunks).
  { subst chunks. induction sources as [|[t f] sources IH]; simpl; [constructor |].
    apply Forall_app. split; [| done]. unfold process_element_chunks.
    eapply Forall_impl; [apply chunk_records_min_length |].
    intros d [_ H]. exact H. }
  destruct chunks as [|d chunks]; simpl.
  - rewrite lookup_empty. constructor.
  - rewrite lookup_insert_eq. exact Hall.
Qed.

End PipelineProperties.

(** C3 as stated fails: a chapter line between two long paragraphs comes
    out of the splitter as a chunk of its own, too short to be kept, and
    the ids of the records are 0 and 2. *)
Lemma chunk_ids_gap :
  _reconstruct_paragraphs book_text
  = paragraph "a" ++ [NL; NL; NL; NL] ++ u "Chapter 2" ++ [NL; NL; NL; NL]
    ++ paragraph "b" /\
  map (fun d => chunk_id (metadata d))
    (process_element_chunks (E := stub_external [] book_chunks)
       book_text book_pdf (u "physics"))
  = [0; 2]%Z /\
  [0; 2]%Z <> map Z.of_nat (seq 0 2).
Proof.
  split_and!; [vm_compute; reflexivity | vm_compute; reflexivity |].
  vm_compute. discriminate.
Qed.

(** ** Lines: [split] and [join] *)

Lemma split_on_cons sep s : exists w ws, split_on sep s = w :: ws.
Proof.
  induction s as [|c s (w & ws & IH)]; simpl; [by eexists _, _ |].
  destruct (c =? sep)%N; [by eexists _, _ |]. rewrite IH. by eexists _, _.
Qed.

(** No line of [s.split(sep)] holds the separator. *)
Lemma split_on_no_sep sep s : Forall (fun w => sep ∉ w) (split_on sep s).
Proof.
  induction s as [|c s IH]; simpl.
  - repeat constructor. apply not_elem_of_nil.
  - destruct (N.eqb_spec c sep) as [->|Hne].
    + constructor; [apply not_elem_of_nil | done].
    + destruct (split_on sep s) as [|w ws]; [repeat constructor; set_solver |].
      apply Forall_cons in IH as [Hw Hws]. constructor; [| done].
      intros Hin. apply elem_of_cons in Hin as [->|Hin]; done.
Qed.

Lemma split_on_app_line sep w rest :
  sep ∉ w ->
  split_on sep (w ++ sep :: rest) = w :: split_on sep rest.
Proof.
  induction w as [|c w IH]; intros Hn; simpl.
  - by rewrite N.eqb_refl.
  - destruct (N.eqb_spec c sep) as [->|Hne]; [set_solver |].
    rewrite IH by set_solver. done.
Qed.

Lemma split_on_line sep w : sep ∉ w -> split_on sep w = [w].
Proof.
  induction w as [|c w IH]; intros Hn; simpl; [done |].
  destruct (N.eqb_spec c sep) as [->|Hne]; [set_solver |].
  rewrite IH by set_solver. done.
Qed.

(** Splitting what [join] made of lines gives the lines back. *)
Lemma split_on_join sep lines :
  lines <> [] -> Forall (fun w => sep ∉ w) lines ->
  split_on sep (join [sep] lines) = lines.
Proof.
  induction lines as [|w lines IH]; intros Hne Hall; [done |].
  apply Forall_cons in Hall as [Hw Hall].
  destruct lines as [|w' lines].
  - simpl. by apply split_on_line.
  - change (join [sep] (w :: w' :: lines))
      with (w ++ sep :: join [sep] (w' :: lines)).
    rewrite split_on_app_line by done. by rewrite IH.
Qed.

(** ** The baseline pass *)

Lemma basic_clean_lines_filter lines :
  basic_clean_lines lines = List.filter keeps lines.
Proof.
  induction lines as [|line lines IH]; [done |].
  unfold keeps at 1. simpl.
  destruct (strip line); [done |].
  repeat (match goal with |- context [if ?b then _ else _] => destruct b end;
          try done).
  by f_equal.
Qed.

Lemma filter_idem {A} (f : A -> bool) l :
  List.filter f (List.filter f l) = List.filter f l.
Proof.
  induction l as [|x l IH]; simpl; [done |].
  destruct (f x) eqn:Hx; simpl; [by rewrite Hx, IH | done].
Qed.

Lemma Forall_filter_sub {A} (P : A -> Prop) f l :
  Forall P l -> Forall P (List.filter f l).
Proof.
  induction 1 as [|x l Hx Hl IH]; simpl; [constructor |].
  destruct (f x); [by constructor | done].
Qed.

Lemma basic_clean_twice (text0 : str) :
  basic_clean (basic_clean text0) = basic_clean text0.
Proof.
  unfold basic_clean. rewrite !basic_clean_lines_filter.
  destruct (List.filter keeps (split_on NL text0)) as [|w ws] eqn:Hf.
  - reflexivity.
  - rewrite split_on_join.
    + by rewrite <- Hf, filter_idem.
    + done.
    + rewrite <- Hf. apply Forall_filter_sub, split_on_no_sep.
Qed.

(** Every variant starts with the baseline pass, so cleaning what the
    baseline pass returned is cleaning the text itself. *)
Lemma clean_after_basic_clean (c : Cleaner) (text0 : str) :
  clean c (basic_clean text0) = clean c text0.
Proof.
  destruct c; unfold clean, ArabicCleaner_clean, MathPhysicsCleaner_clean,
    ScienceCleaner_clean, EnglishCleaner_clean;
    by rewrite basic_clean_twice.
Qed.

(** C9 (as amended). The shared baseline pass, which holds the whitespace
    and separator removal rules, is idempotent: applied to its own output
    it changes nothing. So for every variant, [clean] applied a second
    time changes nothing on a text that the variant's own rules left as
    the baseline pass made it. *)
Theorem basic_clean_idempotent :
  (forall text0 : str, basic_clean (basic_clean text0) = basic_clean text0) /\
  (forall (c : Cleaner) (text0 : str),
     clean c text0 = basic_clean text0 ->
     clean c (clean c text0) = clean c text0).
Proof.
  split.
  - apply basic_clean_twice.
  - intros c text0 Hsame. rewrite Hsame at 1. apply clean_after_basic_clean.
Qed.

(** C9 as stated fails: the Math/Physics variant replaces a figure caption
    by an empty line, and a second application drops that line, by the
    blank-line rule of the baseline pass itself. *)
Lemma clean_twice_changes :
  clean MathPhysicsCleaner
    (u "Hello world" ++ [NL] ++ u "Fig. 1 diagram" ++ [NL] ++ u "Goodbye world")
  = u "Hello world" ++ [NL; NL] ++ u "Goodbye world" /\
  clean MathPhysicsCleaner (u "Hello world" ++ [NL; NL] ++ u "Goodbye world")
  = u "Hello world" ++ [NL] ++ u "Goodbye world" /\
  basic_clean (u "Hello world" ++ [NL; NL] ++ u "Goodbye world")
  = u "Hello world" ++ [NL] ++ u "Goodbye world" /\
  u "Hello world" ++ [NL; NL] ++ u "Goodbye world"
  <> u "Hello world" ++ [NL] ++ u "Goodbye world".
Proof.
  split_and!; try (vm_compute; reflexivity).
  vm_compute. discriminate.
Qed.

(** No variant is idempotent as a whole. *)
Lemma clean_not_idempotent (c : Cleaner) :
  exists x, clean c (clean c x) <> clean c x.
Proof.
  destruct c.
  - exists (u "x a b c"). vm_compute. discriminate.
  - exists (u "Hello world" ++ [NL] ++ u "Fig. 1 diagram" ++ [NL]
            ++ u "Goodbye world").
    vm_compute. discriminate.
  - exists (u "Cell wall" ++ [NL] ++ u "Figure (3) the cell" ++ [NL]
            ++ u "Nucleus here").
    vm_compute. discriminate.
  - exists (u "foo A. "). vm_compute. discriminate.
Qed.

(** ** Degenerate input *)

Lemma lstrip_blank s : forallb is_space s = true -> lstrip s = [].
Proof.
  induction s as [|c s IH]; simpl; [done |].
  intros H. apply andb_true_iff in H as [-> H]. by apply IH.
Qed.

Lemma strip_blank s : forallb is_space s = true -> strip s = [].
Proof. intros H. unfold strip. by rewrite lstrip_blank. Qed.

Lemma split_on_blank sep s :
  forallb is_space s = true ->
  Forall (fun w => forallb is_space w = true) (split_on sep s).
Proof.
  induction s as [|c s IH]; simpl; intros H.
  - by repeat constructor.
  - apply andb_true_iff in H as [Hc H]. specialize (IH H).
    destruct (c =? sep)%N; [by constructor |].
    destruct (split_on sep s) as [|w ws]; [repeat constructor; simpl; by rewrite Hc |].
    apply Forall_cons in IH as [Hw Hws]. constructor; [| done].
    simpl. by rewrite Hc.
Qed.

Lemma basic_clean_blank text0 :
  forallb is_space text0 = true -> basic_clean text0 = [].
Proof.
  intros H. unfold basic_clean.
  pose proof (split_on_blank NL text0 H) as Hall.
  induction Hall as [|w ws Hw Hws IH]; simpl; [done |].
  by rewrite strip_blank.
Qed.

(** C8. [clean] is a total function from strings to strings for each of
    the four variants: every operation it is made of ([split], [strip],
    [join], [count], [replace], [re.match], [re.sub]) is defined on every
    string, so nothing can be raised. On the empty string, and on any
    text made of whitespace only, it returns the empty string. *)
Theorem clean_never_raises :
  (forall (c : Cleaner) (text0 : str), exists out : str, clean c text0 = out) /\
  (forall c : Cleaner, clean c [] = []) /\
  (forall (c : Cleaner) (text0 : str),
     forallb is_space text0 = true -> clean c text0 = []).
Proof.
  split_and!.
  - intros c text0. by eexists.
  - intros []; vm_compute; reflexivity.
  - intros c text0 H. pose proof (basic_clean_blank text0 H) as Hb.
    destruct c; unfold clean, ArabicCleaner_clean, MathPhysicsCleaner_clean,
      ScienceCleaner_clean, EnglishCleaner_clean; rewrite Hb;
      vm_compute; reflexivity.
Qed.

(** ** Paragraph reconstruction *)

Lemma flush_app reconstructed current_para :
  flush reconstructed current_para = reconstructed ++ flush [] current_para.
Proof.
  unfold flush. destruct current_para; [by rewrite app_nil_r | done].
Qed.

(** What was already emitted stays in front of what the loop emits next. *)
Lemma reconstruct_lines_app lines : forall reconstructed current_para,
  reconstruct_lines lines reconstructed current_para
  = reconstructed ++ reconstruct_lines lines [] current_para.
Proof.
  induction lines as [|line lines IH]; intros reconstructed current_para;
    cbn [reconstruct_lines].
  - apply flush_app.
  - destruct (strip line) as [|c s] eqn:Hs.
    + rewrite IH, (IH (flush [] current_para)), flush_app.
      by rewrite app_assoc.
    + destruct (is_header (c :: s)).
      * rewrite IH, (IH (flush [] current_para ++ _)), flush_app.
        by rewrite !app_assoc.
      * destruct (endswith_any SENTENCE_END (c :: s)).
        -- cbn [app]. rewrite IH, (IH [_]). by rewrite app_assoc.
        -- apply IH.
Qed.

(** A header line closes what stands before it: the paragraphs of the
    text are the paragraphs of the lines before the header, the header
    alone between two blank lines, and the paragraphs of the lines after
    it. *)
Lemma reconstruct_header_boundary before header after :
  strip header <> [] ->
  is_header (strip header) = true ->
  forall reconstructed current_para,
  reconstruct_lines (before ++ header :: after) reconstructed current_para
  = reconstruct_lines before reconstructed current_para
    ++ [[NL; NL] ++ strip header ++ [NL; NL]]
    ++ reconstruct_lines after [] [].
Proof.
  intros Hne Hh. induction before as [|line before IH];
    intros reconstructed current_para.
  - cbn [app reconstruct_lines].
    destruct (strip header) as [|c s] eqn:Hs; [done |].
    rewrite Hh, reconstruct_lines_app. by rewrite <- app_assoc.
  - rewrite <- app_comm_cons. cbn [reconstruct_lines].
    destruct (strip line) as [|c s]; [apply IH |].
    destruct (is_header (c :: s)); [apply IH |].
    destruct (endswith_any SENTENCE_END (c :: s)); apply IH.
Qed.


(** ** The matcher against a declarative reading of patterns *)

Lemma is_Some_or {A} (m : option A) (o : option A) :
  is_Some m \/ is_Some o -> is_Some (match m with Some x => Some x | None => o end).
Proof. destruct m; [eauto | tauto + (intros [[]|]; done)]. Qed.

(** The backtracking matcher finds a match whenever there is one after
    which the continuation succeeds; for a star, with any fuel that covers
    the string. *)
Lemma rmatch_complete ml r p s p' s' :
  matches ml r p s p' s' ->
  forall (R : Type) (k : option codepoint -> str -> gmap nat str -> option R),
    (forall caps, is_Some (k p' s' caps)) ->
    forall caps,
      is_Some (rmatch ml r p s caps k) /\
      (forall r0 fuel, r = Star r0 -> length s <= fuel ->
         is_Some (star_iter (rmatch ml r0) k fuel p s caps)).
Proof.
  induction 1 as
    [ prev s | q prev c s Hq | r1 r2 p0 s0 p1 s1 p2 s2 H1 IH1 H2 IH2
    | r1 r2 p0 s0 p1 s1 H1 IH1 | r1 r2 p0 s0 p1 s1 H1 IH1
    | r p0 s0 p1 s1 H1 IH1 | r prev s | r prev s
    | r p0 s0 p1 s1 p2 s2 H1 IH1 Hlt H2 IH2
    | n r p0 s0 p1 s1 H1 IH1 | prev s Hb | prev s He ];
    intros R k Hk caps.
  - split; [apply Hk | discriminate].
  - split; [cbn [rmatch]; rewrite Hq; apply Hk | discriminate].
  - split; [| discriminate]. cbn [rmatch].
    apply IH1. intros caps'. by apply IH2.
  - split; [| discriminate]. cbn [rmatch].
    apply is_Some_or. left. by apply IH1.
  - split; [| discriminate]. cbn [rmatch]. apply is_Some_or.
    destruct (rmatch ml r1 p0 s0 caps k); [left; eauto | right; by apply IH1].
  - split; [| discriminate]. cbn [rmatch].
    apply is_Some_or. left. by apply IH1.
  - split; [| discriminate]. cbn [rmatch]. apply is_Some_or. right. apply Hk.
  - assert (Hgen : forall fuel,
               is_Some (star_iter (rmatch ml r) k fuel prev s caps)).
    { intros [|fuel]; simpl; [apply Hk |]. apply is_Some_or. right. apply Hk. }
    split; [apply Hgen |]. intros r0 fuel [= <-] _. apply Hgen.
  - assert (Hgen : forall fuel, length s0 <= fuel ->
               is_Some (star_iter (rmatch ml r) k fuel p0 s0 caps)).
    { intros [|fuel] Hfuel; [lia |]. simpl.
      apply is_Some_or. left. apply IH1. intros caps'.
      destruct (Nat.ltb_spec (length s1) (length s0)); [| lia].
      apply (IH2 R k Hk caps'); [done | lia]. }
    split; [by apply Hgen |]. intros r0 fuel [= <-]. apply Hgen.
  - split; [| discriminate]. cbn [rmatch].
    apply IH1. intros caps'. apply Hk.
  - split; [cbn [rmatch]; rewrite Hb; apply Hk | discriminate].
  - split; [cbn [rmatch]; rewrite He; apply Hk | discriminate].
Qed.

Lemma re_search_matches ml r s p' s' :
  matches ml r None s p' s' -> re_search ml r s = true.
Proof.
  intros H. unfold re_search.
  destruct (rmatch_complete _ _ _ _ _ _ H _
              (fun _ s'' caps => Some (s'', caps)) ltac:(eauto) ∅) as [[x Hx] _].
  destruct s; simpl; unfold match_here; by rewrite Hx.
Qed.

(** *** Lines that the header patterns accept *)

Lemma matches_istr ml (w : str) prev rest :
  w <> [] ->
  matches ml (seq_of ilit w) prev (w ++ rest) (last w) rest.
Proof.
  revert prev. induction w as [|c w IH]; intros prev Hne; [done |].
  assert (Hc : ieq c c = true) by (unfold ieq; by rewrite N.eqb_refl).
  destruct w as [|c' w]; [by apply m_chr |].
  change (seq_of ilit (c :: c' :: w)) with (Cat (ilit c) (seq_of ilit (c' :: w))).
  eapply m_cat; [by apply m_chr |].
  change (last (c :: c' :: w)) with (last (c' :: w)). by apply IH.
Qed.

(** A line that begins with ["Chapter 3"] is a header. *)
Lemma is_header_chapter_3 rest : is_header (u "Chapter 3" ++ rest) = true.
Proof.
  unfold is_header, separators. cbn [existsb].
  apply orb_true_iff. left.
  eapply (re_search_matches _ _ _ _ rest).
  unfold cats. cbn [fold_right].
  eapply m_cat; [by apply m_bol |].
  eapply m_cat.
  { apply m_group. unfold alts. apply m_alt_l.
    apply (matches_istr false (u "Chapter") None (u " 3" ++ rest)). done. }
  eapply m_cat.
  { unfold Plus. eapply m_cat; [by apply (m_chr _ WS) || by apply m_chr |].
    apply m_star_stop. }
  eapply m_cat; [| apply m_empty].
  unfold Plus. eapply m_cat; [by apply m_chr | apply m_star_stop].
Qed.

(** A line that begins with ["الفصل الأول"] is a header. *)
Lemma is_header_first_chapter rest :
  is_header (u "الفصل الأول" ++ rest) = true.
Proof.
  unfold is_header, separators. cbn [existsb].
  apply orb_true_iff. right. apply orb_true_iff. right.
  apply orb_true_iff. left.
  eapply (re_search_matches _ _ _ _ rest).
  unfold cats. cbn [fold_right].
  eapply m_cat; [by apply m_bol |].
  eapply m_cat.
  { apply m_group. unfold alts. apply m_alt_r, m_alt_l.
    apply (matches_istr false (u "الفصل") None (u " الأول" ++ rest)). done. }
  eapply m_cat.
  { unfold Plus. eapply m_cat; [by apply m_chr | apply m_star_stop]. }
  eapply m_cat; [| apply m_empty].
  apply m_group. unfold alts. apply m_alt_l.
  apply (matches_istr false (u "الأول") _ rest). done.
Qed.

Lemma lstrip_app_nonspace s w :
  lstrip w = w -> w <> [] -> lstrip (s ++ w) = lstrip s ++ w.
Proof.
  intros Hw Hne. induction s as [|c s IH]; simpl; [done |].
  destruct (is_space c); [done | reflexivity].
Qed.

(** Stripping a line that begins with a word [w] of no outer whitespace
    leaves a line that begins with [w]. *)
Lemma strip_prefix w rest :
  w <> [] -> lstrip w = w -> lstrip (rev w) = rev w ->
  exists rest', strip (w ++ rest) = w ++ rest'.
Proof.
  intros Hne Hl Hr. exists (rev (lstrip (rev rest))).
  unfold strip, rstrip.
  assert (Hlw : lstrip (w ++ rest) = w ++ rest).
  { destruct w as [|c w]; [done |]. simpl in *.
    destruct (is_space c); [| done].
    pose proof (lstrip_length w) as Hlen. rewrite Hl in Hlen. simpl in Hlen. lia. }
  rewrite Hlw, rev_app_distr, lstrip_app_nonspace.
  - by rewrite rev_app_distr, rev_involutive.
  - done.
  - intros H. apply (f_equal (@rev codepoint)) in H.
    rewrite rev_involutive in H. done.
Qed.

(** The part of C7 that the code meets: a line that begins with
    ["Chapter 3"] or with ["الفصل الأول"] closes the paragraph being
    gathered, stands alone between two blank lines, and what follows
    starts from an empty buffer. *)
Lemma header_line_boundary before line rest after :
  line = u "Chapter 3" ++ rest \/ line = u "الفصل الأول" ++ rest ->
  reconstruct_lines (before ++ line :: after) [] []
  = reconstruct_lines before [] []
    ++ [[NL; NL] ++ strip line ++ [NL; NL]]
    ++ reconstruct_lines after [] [].
Proof.
  intros [-> | ->].
  - destruct (strip_prefix (u "Chapter 3") rest) as [rest' Hs]; try done.
    apply reconstruct_header_boundary; rewrite Hs; [done |].
    apply is_header_chapter_3.
  - destruct (strip_prefix (u "الفصل الأول") rest) as [rest' Hs]; try done.
    apply reconstruct_header_boundary; rewrite Hs; [done |].
    apply is_header_first_chapter.
Qed.

(** C7. The code misses the tenth ordinal: its pattern lists ["عشر"]
    where the claim has ["العاشر"], so a line ["الفصل العاشر"] is not a
    header and is merged into the paragraph around it, while
    ["الفصل التاسع"] in the same place is set apart. *)
Theorem tenth_chapter_not_detected :
  is_header (u "الفصل العاشر") = false /\
  _reconstruct_paragraphs
    (u "Introduction to the course" ++ [NL] ++ u "الفصل العاشر" ++ [NL]
     ++ u "The tenth chapter starts here")
  = u "Introduction to the course الفصل العاشر The tenth chapter starts here" /\
  is_header (u "الفصل التاسع") = true /\
  _reconstruct_paragraphs
    (u "Introduction to the course" ++ [NL] ++ u "الفصل التاسع" ++ [NL]
     ++ u "The ninth chapter starts here")
  = u "Introduction to the course" ++ [NL; NL; NL; NL] ++ u "الفصل التاسع"
    ++ [NL; NL; NL; NL] ++ u "The ninth chapter starts here".
Proof.
  split_and!; vm_compute; reflexivity.
Qed.
